(** * anki-mcp-server: a shallow embedding of [src/index.ts]

    The server adapts an Anki store (reached through the [yanki-connect]
    client) to the Model Context Protocol.  This file embeds the
    request-handling layer of [src/index.ts]:

    - [formatQuery]        resource keyword to store query;
    - [cleanWithRegex]     HTML card content to plain text;
    - [findCardsAndOrder]  retrieval, projection and ordering of cards;
    - [listResources]      the static resource catalogue;
    - [callTool]           the tool dispatcher.

    Strings are JavaScript strings, that is, sequences of UTF-16 code units.
    Calls to the store client are the only effects; they are kept as explicit
    nodes of a program tree ([Prog]) that is run against an arbitrary store. *)

From Stdlib Require Import String Ascii.
From Stdlib Require Import List NArith ZArith Lia Bool.
From Stdlib Require Import Permutation Sorted.
Import ListNotations.

(* ================================================================= *)
(** ** JavaScript strings *)

(** A code unit of a JavaScript string.  No upper bound is imposed: every
    statement below holds in particular for the 16-bit units of a real
    string. *)
Definition char := N.
Definition jsstring := list char.

(** A string literal of the source (all of them are ASCII). *)
Definition lit (s : string) : jsstring :=
  map N_of_ascii (list_ascii_of_string s).
Arguments lit s%_string.

Definition LT : char := 60%N.         (* '<' *)
Definition GT : char := 62%N.         (* '>' *)
Definition AMP : char := 38%N.        (* '&' *)
Definition QUOT : char := 34%N.       (* double quote *)
Definition SPACE : char := 32%N.      (* ' ' *)
Definition NL : char := 10%N.         (* '\n' *)
Definition LBRACKET : char := 91%N.   (* '[' *)
Definition RBRACKET : char := 93%N.   (* ']' *)

(** [String.prototype.startsWith]. *)
Fixpoint startsWith (p s : jsstring) : bool :=
  match p, s with
  | [], _ => true
  | a :: p', b :: s' => (a =? b)%N && startsWith p' s'
  | _ :: _, [] => false
  end.

(** [s.slice(n)] for a non-negative [n]. *)
Definition slice_from (n : nat) (s : jsstring) : jsstring := skipn n s.

(** WhiteSpace and LineTerminator code points of ECMAScript, the ones
    [String.prototype.trim] removes: TAB, LF, VT, FF, CR, SP, NBSP, the
    Unicode space separators (category Zs), LS, PS and the BOM. *)
Definition is_white_space (c : char) : bool :=
  existsb (N.eqb c)
    [9%N; 10%N; 11%N; 12%N; 13%N; 32%N; 160%N; 5760%N; 8232%N; 8233%N;
     8239%N; 8287%N; 12288%N; 65279%N]
  || ((8192 <=? c)%N && (c <=? 8202)%N).

Fixpoint trimStart (s : jsstring) : jsstring :=
  match s with
  | c :: s' => if is_white_space c then trimStart s' else s
  | [] => []
  end.

Definition trimEnd (s : jsstring) : jsstring := rev (trimStart (rev s)).

(** [String.prototype.trim]. *)
Definition trim (s : jsstring) : jsstring := trimEnd (trimStart s).

(** [s.split(sep)] for a separator of one code unit: the pieces between the
    occurrences of [sep]; the empty string splits into one empty piece. *)
Fixpoint split (sep : char) (s : jsstring) : list jsstring :=
  match s with
  | [] => [[]]
  | c :: s' =>
      if (c =? sep)%N then [] :: split sep s'
      else match split sep s' with
           | l :: ls => (c :: l) :: ls
           | [] => [[c]]
           end
  end.

(** [Array.prototype.join] on an array of strings. *)
Fixpoint join (sep : jsstring) (ls : list jsstring) : jsstring :=
  match ls with
  | [] => []
  | [l] => l
  | l :: ls' => l ++ sep ++ join sep ls'
  end.

(* ================================================================= *)
(** ** Regular expressions

    Every regular expression of the source is a sequence of single-unit
    matchers, some of them under a quantifier:
    [<style[^>]*>[\s\S]*?<\/style>], [<div[^>]*>], [<[^>]+>],
    [\[anki:play:[^\]]+\]] and five literals.  Such an expression is a list of
    atoms, and [exec] is the backtracking matcher of ECMAScript restricted to
    them: it tries the alternatives of each quantifier in priority order
    (longest first for a greedy star, shortest first for a lazy one) and
    returns what is left of the input after the first successful match
    anchored at the start. *)

Inductive atom : Type :=
| One (p : char -> bool)        (* a class, once *)
| Star (p : char -> bool)       (* a class under a greedy [*] *)
| StarLazy (p : char -> bool).  (* a class under a lazy [*?] *)

Definition regex := list atom.

Fixpoint star_greedy (p : char -> bool) (k : jsstring -> option jsstring)
    (s : jsstring) : option jsstring :=
  match s with
  | c :: s' =>
      if p c then
        match star_greedy p k s' with
        | Some r => Some r
        | None => k s
        end
      else k s
  | [] => k []
  end.

Fixpoint star_lazy (p : char -> bool) (k : jsstring -> option jsstring)
    (s : jsstring) : option jsstring :=
  match k s with
  | Some r => Some r
  | None =>
      match s with
      | c :: s' => if p c then star_lazy p k s' else None
      | [] => None
      end
  end.

Fixpoint exec (r : regex) : jsstring -> option jsstring :=
  match r with
  | [] => fun s => Some s
  | One p :: r' =>
      fun s => match s with
               | c :: s' => if p c then exec r' s' else None
               | [] => None
               end
  | Star p :: r' => star_greedy p (exec r')
  | StarLazy p :: r' => star_lazy p (exec r')
  end.

(** Class and literal builders. *)
Definition eq_char (c : char) : char -> bool := fun x => (x =? c)%N.
Definition neq_char (c : char) : char -> bool := fun x => negb (x =? c)%N.
Definition any_char : char -> bool := fun _ => true.

(** Canonicalize of ECMAScript without the [u] flag, as far as a match
    against an ASCII pattern character depends on it: ASCII lower-case
    letters fold to upper case; a unit outside ASCII is never folded onto an
    ASCII one. *)
Definition canonicalize (c : char) : char :=
  if ((97 <=? c) && (c <=? 122))%N then (c - 32)%N else c.

Definition eq_char_ci (c : char) : char -> bool :=
  fun x => (canonicalize x =? canonicalize c)%N.

Definition re_lit (s : string) : regex :=
  map (fun c => One (eq_char c)) (lit s).
Definition re_lit_ci (s : string) : regex :=
  map (fun c => One (eq_char_ci c)) (lit s).
Arguments re_lit s%_string.
Arguments re_lit_ci s%_string.

(** [s.replace(re, rep)] for a global [re]: scan left to right; at a match
    emit [rep] and go on after it, otherwise keep the unit and step.  [skip]
    counts the units of the current match still to be dropped.  Every
    expression of the source consumes at least one unit, so the rule for
    empty matches is not needed. *)
Fixpoint replace_from (re : regex) (rep : jsstring) (skip : nat)
    (s : jsstring) : jsstring :=
  match s with
  | [] => []
  | c :: s' =>
      match skip with
      | S n => replace_from re rep n s'
      | O =>
          match exec re s with
          | Some rest =>
              rep ++ replace_from re rep (length s' - length rest) s'
          | None => c :: replace_from re rep 0 s'
          end
      end
  end.

Definition replace (re : regex) (rep : jsstring) (s : jsstring) : jsstring :=
  replace_from re rep 0 s.

(* ================================================================= *)
(** ** The query formatter and the text normalizer *)

(** [formatQuery], src/index.ts:118. *)
Definition formatQuery (query : jsstring) : jsstring :=
  if startsWith (lit "deck") query then lit "deck:" ++ slice_from 4 query
  else if startsWith (lit "is") query then lit "is:" ++ slice_from 2 query
  else query.

(** The regular expressions of [cleanWithRegex]. *)
Definition re_style : regex :=
  re_lit_ci "<style"
  ++ [Star (neq_char GT); One (eq_char_ci GT); StarLazy any_char]
  ++ re_lit_ci "</style>".
Definition re_div : regex :=
  re_lit "<div" ++ [Star (neq_char GT); One (eq_char GT)].
Definition re_tag : regex :=
  [One (eq_char LT); One (neq_char GT); Star (neq_char GT); One (eq_char GT)].
Definition re_play : regex :=
  re_lit "[anki:play:"
  ++ [One (neq_char RBRACKET); Star (neq_char RBRACKET);
      One (eq_char RBRACKET)].

(** The replacements up to, and excluding, the clean-up of lines. *)
Definition strip_markup (htmlString : jsstring) : jsstring :=
  let s := replace re_style [] htmlString in
  let s := replace re_div [NL] s in
  let s := replace re_tag [SPACE] s in
  let s := replace re_play [] s in
  let s := replace (re_lit "&nbsp;") [SPACE] s in
  let s := replace (re_lit "&amp;") [AMP] s in
  let s := replace (re_lit "&lt;") [LT] s in
  let s := replace (re_lit "&gt;") [GT] s in
  replace (re_lit "&quot;") [QUOT] s.

(** [.split("\n").map(trim).filter(nonempty).join("\n")]. *)
Definition clean_lines (s : jsstring) : jsstring :=
  join [NL]
    (filter (fun line => (0 <? length line)%nat) (map trim (split NL s))).

(** [cleanWithRegex], src/index.ts:129. *)
Definition cleanWithRegex (htmlString : jsstring) : jsstring :=
  clean_lines (strip_markup htmlString).

(* ================================================================= *)
(** ** Numbers, arrays and JSON text *)

(** Card identifiers, note identifiers and due keys are integers.  The
    template literals, [Array.prototype.join] and [JSON.stringify] print them
    with [Number::toString].  On an integer that a Number holds exactly, of
    magnitude at most 2^53, that is the decimal notation of the integer,
    which is what [number_to_string] computes.  Beyond that magnitude
    [Number::toString] prints the shortest digits that read back as the same
    Number (2^60 is printed 1152921504606847000), and exponent notation from
    10^21 on: [number_to_string] does not follow it there.  The properties
    proved of the handlers whose text holds a number therefore take that
    number to be an [exact_integer]. *)
Fixpoint uint_to_string (d : Decimal.uint) : jsstring :=
  match d with
  | Decimal.Nil => []
  | Decimal.D0 d' => 48%N :: uint_to_string d'
  | Decimal.D1 d' => 49%N :: uint_to_string d'
  | Decimal.D2 d' => 50%N :: uint_to_string d'
  | Decimal.D3 d' => 51%N :: uint_to_string d'
  | Decimal.D4 d' => 52%N :: uint_to_string d'
  | Decimal.D5 d' => 53%N :: uint_to_string d'
  | Decimal.D6 d' => 54%N :: uint_to_string d'
  | Decimal.D7 d' => 55%N :: uint_to_string d'
  | Decimal.D8 d' => 56%N :: uint_to_string d'
  | Decimal.D9 d' => 57%N :: uint_to_string d'
  end.

Definition number_to_string (z : Z) : jsstring :=
  match z with
  | Z0 => [48%N]
  | Zpos p => uint_to_string (Pos.to_uint p)
  | Zneg p => 45%N :: uint_to_string (Pos.to_uint p)
  end.

(** The value of [Number(args.num)].  A finite value is kept through its
    integer part, which is all [Array.prototype.slice] reads of it. *)
Inductive number : Type :=
| NaN
| Infinity (negative : bool)
| Finite (z : Z).

Inductive integer_or_infinity : Type :=
| MinusInfinity
| Integer (z : Z)
| PlusInfinity.

Definition ToIntegerOrInfinity (n : number) : integer_or_infinity :=
  match n with
  | NaN => Integer 0
  | Infinity true => MinusInfinity
  | Infinity false => PlusInfinity
  | Finite z => Integer z
  end.

(** The clamping of a relative index by [Array.prototype.slice]: a negative
    index counts from the end of the array. *)
Definition relative_index (len : nat) (i : integer_or_infinity) : nat :=
  match i with
  | MinusInfinity => 0
  | Integer z =>
      if (z <? 0)%Z then Z.to_nat (Z.max (Z.of_nat len + z) 0)
      else Z.to_nat (Z.min z (Z.of_nat len))
  | PlusInfinity => len
  end.

(** [arr.slice(start, end)]. *)
Definition slice {A : Type} (arr : list A) (start end_ : number) : list A :=
  let len := length arr in
  let k := relative_index len (ToIntegerOrInfinity start) in
  let final := relative_index len (ToIntegerOrInfinity end_) in
  firstn (final - k) (skipn k arr).

(** [arr.filter((_, index) => f(index))], the indices counted from [i]. *)
Fixpoint filter_index {A : Type} (f : nat -> bool) (i : nat) (arr : list A)
  : list A :=
  match arr with
  | [] => []
  | x :: arr' =>
      if f i then x :: filter_index f (S i) arr' else filter_index f (S i) arr'
  end.

(** [arr.sort(cmp)].  ECMAScript requires the sort to be stable; for a
    consistent comparator, such as a difference of integers, that fixes the
    result, which a stable insertion sort computes. *)
Fixpoint sort_insert {A : Type} (cmp : A -> A -> Z) (x : A) (l : list A)
  : list A :=
  match l with
  | [] => [x]
  | y :: l' => if (cmp x y <=? 0)%Z then x :: l else y :: sort_insert cmp x l'
  end.

Fixpoint sort {A : Type} (cmp : A -> A -> Z) (arr : list A) : list A :=
  match arr with
  | [] => []
  | x :: arr' => sort_insert cmp x (sort cmp arr')
  end.

(** [JSON.stringify] of a string: QuoteJSONString. *)
Definition hex_digit (n : N) : char :=
  if (n <? 10)%N then (48 + n)%N else (87 + n)%N.

Definition unicode_escape (c : char) : jsstring :=
  lit "\u"
  ++ [hex_digit ((c / 4096) mod 16); hex_digit ((c / 256) mod 16);
      hex_digit ((c / 16) mod 16); hex_digit (c mod 16)]%N.

Definition is_leading_surrogate (c : char) : bool :=
  ((55296 <=? c) && (c <=? 56319))%N.
Definition is_trailing_surrogate (c : char) : bool :=
  ((56320 <=? c) && (c <=? 57343))%N.

Definition quote_unit (c : char) : jsstring :=
  if (c =? 8)%N then lit "\b"
  else if (c =? 9)%N then lit "\t"
  else if (c =? 10)%N then lit "\n"
  else if (c =? 12)%N then lit "\f"
  else if (c =? 13)%N then lit "\r"
  else if (c =? 34)%N then lit "\" ++ [QUOT]
  else if (c =? 92)%N then lit "\\"
  else if (c <? 32)%N || is_trailing_surrogate c then unicode_escape c
  else [c].

Fixpoint quote_units (s : jsstring) : jsstring :=
  match s with
  | [] => []
  | c :: s' =>
      if is_leading_surrogate c then
        match s' with
        | d :: s'' =>
            if is_trailing_surrogate d then c :: d :: quote_units s''
            else unicode_escape c ++ quote_units s'
        | [] => unicode_escape c
        end
      else quote_unit c ++ quote_units s'
  end.

Definition QuoteJSONString (s : jsstring) : jsstring :=
  [QUOT] ++ quote_units s ++ [QUOT].

(* ================================================================= *)
(** ** Cards and the store client *)

(** [interface Card], src/index.ts:16. *)
Record Card : Type := {
  cardId : Z;
  question : jsstring;
  answer : jsstring;
  due : Z
}.

(** A record of [client.card.cardsInfo]: the fields the server reads. *)
Record CardInfo : Type := {
  info_cardId : Z;
  info_question : jsstring;
  info_answer : jsstring;
  info_due : Z
}.

(** An element of [args.answers]. *)
Record Answer : Type := {
  answer_cardId : Z;
  answer_ease : Z
}.

(** A JavaScript object literal with string values: its properties in
    source order. *)
Definition object := list (string * jsstring).

Fixpoint get (o : object) (key : string) : option jsstring :=
  match o with
  | [] => None
  | (k, v) :: o' => if String.eqb k key then Some v else get o' key
  end.

(** The argument of [client.note.addNote]. *)
Record Note : Type := {
  deckName : jsstring;
  fields : object;
  modelName : jsstring
}.

(** [JSON.stringify] of a [Card] and of an array of them. *)
Definition json_key (k : string) : jsstring := [QUOT] ++ lit k ++ [QUOT; 58%N].

Definition stringify_card (c : Card) : jsstring :=
  lit "{" ++ json_key "cardId" ++ number_to_string (cardId c)
  ++ lit "," ++ json_key "question" ++ QuoteJSONString (question c)
  ++ lit "," ++ json_key "answer" ++ QuoteJSONString (answer c)
  ++ lit "," ++ json_key "due" ++ number_to_string (due c)
  ++ lit "}".

Definition stringify_cards (cards : list Card) : jsstring :=
  lit "[" ++ join (lit ",") (map stringify_card cards) ++ lit "]".

(** The four operations of the store client the server uses.  A call is an
    effect: the program stops at it and goes on with the reply. *)
Inductive call : Type :=
| findCards (query : jsstring)
| cardsInfo (cards : list Z)
| answerCards (answers : list Answer)
| addNote (note : Note).

Definition reply (c : call) : Type :=
  match c with
  | findCards _ => list Z
  | cardsInfo _ => list CardInfo
  | answerCards _ => list bool
  | addNote _ => Z
  end.

(** What a handler throws: an [Error] it builds itself, or the failure of a
    store call, which it never catches. *)
Inductive error : Type :=
| Error (message : jsstring)
| StoreFailure (reason : jsstring).

(** An [async] function of the source: a tree with a store call at each
    [await]. *)
Inductive Prog (A : Type) : Type :=
| Ret (a : A)
| Throw (e : error)
| Await (c : call) (k : reply c -> Prog A).
Arguments Ret {A} a.
Arguments Throw {A} e.
Arguments Await {A} c k.

Fixpoint bind {A B : Type} (p : Prog A) (f : A -> Prog B) : Prog B :=
  match p with
  | Ret a => f a
  | Throw e => Throw e
  | Await c k => Await c (fun r => bind (k r) f)
  end.

Notation "x <- p ;; q" := (bind p (fun x => q))
  (at level 61, p at next level, right associativity).

(** A store: any state, any answers; a call may fail. *)
Inductive result (A : Type) : Type :=
| Ok (a : A)
| Failed (reason : jsstring).
Arguments Ok {A} a.
Arguments Failed {A} reason.

Definition store (S : Type) : Type := forall c : call, S -> result (reply c) * S.

Inductive outcome (A : Type) : Type :=
| Returned (a : A)
| Thrown (e : error).
Arguments Returned {A} a.
Arguments Thrown {A} e.

(** Running a program against a store: the outcome, the final state of the
    store and the calls made, in order. *)
Fixpoint run {S A : Type} (h : store S) (p : Prog A) (st : S)
  : outcome A * S * list call :=
  match p with
  | Ret a => (Returned a, st, [])
  | Throw e => (Thrown e, st, [])
  | Await c k =>
      match h c st with
      | (Ok r, st') =>
          let '(o, st'', log) := run h (k r) st' in (o, st'', c :: log)
      | (Failed reason, st') => (Thrown (StoreFailure reason), st', [c])
      end
  end.

(* ================================================================= *)
(** ** The handlers *)

(** [findCardsAndOrder], src/index.ts:101. *)
Definition project (card : CardInfo) : Card :=
  {| cardId := info_cardId card;
     question := cleanWithRegex (info_question card);
     answer := cleanWithRegex (info_answer card);
     due := info_due card |}.

Definition by_due (a b : Card) : Z := (due a - due b)%Z.

Definition findCardsAndOrder (query : jsstring) : Prog (list Card) :=
  Await (findCards (formatQuery query)) (fun cardIds : list Z =>
  Await (cardsInfo cardIds) (fun infos : list CardInfo =>
  Ret (sort by_due (map project infos)))).

(** The ListResources handler, src/index.ts:47. *)
Record ListResourcesResult : Type := { resources : list object }.

Definition listResources : ListResourcesResult :=
  {| resources :=
       [ [ ("uri", lit "anki://search/deckcurrent");
           ("mimeType", lit "application/json");
           ("name", lit "Current Deck");
           ("description", lit "Current Anki deck") ];
         [ ("uri", lit "anki://search/isdue");
           ("mimeType", lit "application/json");
           ("name", lit "Due cards");
           ("description",
            lit "Cards in review and learning waiting to be studied") ];
         [ ("uri", lit "anki://search/isnew");
           ("mimiType", lit "application/json");
           ("name", lit "New cards");
           ("description", lit "All unseen cards") ] ]%string |}.

(** The CallTool handler, src/index.ts:243.  [arguments] is absent or an
    object; its properties are read after the conversions the handler
    applies to them ([String(...)], [Number(...)], the cast of [answers]). *)
Record Args : Type := {
  answers : list Answer;
  front : jsstring;
  back : jsstring;
  num : number
}.

Record CallToolRequest : Type := {
  name : jsstring;
  arguments : option Args
}.

Record Content : Type := { type : jsstring; text : jsstring }.
Record CallToolResult : Type := { content : list Content }.

Definition text_result (t : jsstring) : CallToolResult :=
  {| content := [ {| type := lit "text"; text := t |} ] |}.

Fixpoint string_eqb (a b : jsstring) : bool :=
  match a, b with
  | [], [] => true
  | x :: a', y :: b' => (x =? y)%N && string_eqb a' b'
  | _, _ => false
  end.

(** [result[index]] as a condition: [undefined] past the end is falsy. *)
Definition truthy_at (result : list bool) (index : nat) : bool :=
  match nth_error result index with
  | Some b => b
  | None => false
  end.

(** [`${cardId}`] for the first element of a possibly empty array. *)
Definition template_of_first (ids : list Z) : jsstring :=
  match ids with
  | cardId :: _ => number_to_string cardId
  | [] => lit "undefined"
  end.

Definition update_cards (args : Args) : Prog CallToolResult :=
  Await (answerCards (answers args)) (fun result : list bool =>
  let successfulCards :=
    map answer_cardId (filter_index (truthy_at result) 0 (answers args)) in
  let failedCards :=
    filter_index (fun index => negb (truthy_at result index)) 0 (answers args) in
  if (0 <? length failedCards)%nat then
    let failedCardIds := map answer_cardId failedCards in
    Throw (Error (lit "Failed to update cards with IDs: "
                  ++ join (lit ", ") (map number_to_string failedCardIds)))
  else
    Ret (text_result
           (lit "Updated cards "
            ++ join (lit ", ") (map number_to_string successfulCards)))).

Definition add_card (args : Args) : Prog CallToolResult :=
  let note :=
    {| deckName := lit "Default";
       fields := [ ("Back", back args); ("Front", front args) ]%string;
       modelName := lit "Basic" |} in
  Await (addNote note) (fun noteId : Z =>
  Await (findCards (lit "nid:" ++ number_to_string noteId))
    (fun ids : list Z =>
  Ret (text_result (lit "Created card with id " ++ template_of_first ids)))).

Definition get_due_cards (args : Args) : Prog CallToolResult :=
  cards <- findCardsAndOrder (lit "is:due") ;;
  Ret (text_result (stringify_cards (slice cards (Finite 0) (num args)))).

Definition get_new_cards (args : Args) : Prog CallToolResult :=
  cards <- findCardsAndOrder (lit "is:new") ;;
  Ret (text_result (stringify_cards (slice cards (Finite 0) (num args)))).

Definition callTool (request : CallToolRequest) : Prog CallToolResult :=
  match arguments request with
  | None =>
      Throw (Error (lit "No arguments provided for tool: " ++ name request))
  | Some args =>
      if string_eqb (name request) (lit "update_cards") then update_cards args
      else if string_eqb (name request) (lit "add_card") then add_card args
      else if string_eqb (name request) (lit "get_due_cards")
      then get_due_cards args
      else if string_eqb (name request) (lit "get_new_cards")
      then get_new_cards args
      else Throw (Error (lit "Unknown tool"))
  end.

(* ================================================================= *)
(** ** The ReadResource and ListTools handlers *)

(** [arr.pop()] as a value: the last element, [undefined] for an empty
    array. *)
Fixpoint pop {A : Type} (arr : list A) : option A :=
  match arr with
  | [] => None
  | [x] => Some x
  | _ :: arr' => pop arr'
  end.

Definition SLASH : char := 47%N.

Record ResourceContents : Type := {
  contents_uri : jsstring;
  contents_mimeType : jsstring;
  contents_text : jsstring
}.

Record ReadResourceResult : Type := { contents : list ResourceContents }.

(** The body of the [try] block of the ReadResource handler. *)
Definition read_cards (uri query : jsstring) : Prog ReadResourceResult :=
  cards <- findCardsAndOrder query ;;
  Ret {| contents :=
           [ {| contents_uri := uri;
                contents_mimeType := lit "application/json";
                contents_text := stringify_cards cards |} ] |}.

(** The ReadResource handler, src/index.ts:75, run against a store.
    [URL_pathname uri] is [new URL(uri).pathname], the parser being the
    platform's: [None] when it rejects the uri, which ends the handler with
    a TypeError before anything else.  The result is the outcome, the state
    of the store, the store calls made and the errors the [catch] clause
    wrote to the console. *)
Inductive read_outcome : Type :=
| InvalidURL
| Handled (o : outcome ReadResourceResult).

Definition readResource {S : Type} (URL_pathname : jsstring -> option jsstring)
    (h : store S) (uri : jsstring) (st : S)
  : read_outcome * S * list call * list error :=
  match URL_pathname uri with
  | None => (InvalidURL, st, [], [])
  | Some pathname =>
      match pop (split SLASH pathname) with
      | Some (c :: query') =>
          match run h (read_cards uri (c :: query')) st with
          | (Thrown e, st', log) => (Handled (Thrown e), st', log, [e])
          | (Returned r, st', log) => (Handled (Returned r), st', log, [])
          end
      | _ =>
          (Handled (Thrown (Error (lit "Invalid resource URI"))), st, [], [])
      end
  end.

(** The ListTools handler, src/index.ts:157: the catalogue of tools, each
    with its name, its description and the schema of its arguments. *)
#[local] Set Warnings "-register-all".
Inductive schema : Type :=
| ObjectSchema (properties : list (string * schema))
               (required : option (list string))
| ArraySchema (items : schema)
| NumberSchema (description : jsstring)
| StringSchema (description : jsstring).

Record Tool : Type := {
  tool_name : jsstring;
  tool_description : jsstring;
  inputSchema : schema
}.

Record ListToolsResult : Type := { tools : list Tool }.

Definition add_card_description : jsstring :=
  lit "Create a new flashcard in Anki for the user. Must use HTML formatting only. IMPORTANT FORMATTING RULES:"
  ++ [NL] ++ lit "1. Must use HTML tags for ALL formatting - NO markdown"
  ++ [NL] ++ lit "2. Use <br> for ALL line breaks"
  ++ [NL] ++ lit "3. For code blocks, use <pre> with inline CSS styling"
  ++ [NL] ++ lit "4. Example formatting:"
  ++ [NL] ++ lit "   - Line breaks: <br>"
  ++ [NL] ++ lit "   - Code: <pre style=" ++ [QUOT]
  ++ lit "background-color: transparent; padding: 10px; border-radius: 5px;"
  ++ [QUOT] ++ lit ">"
  ++ [NL] ++ lit "   - Lists: <ol> and <li> tags"
  ++ [NL] ++ lit "   - Bold: <strong>"
  ++ [NL] ++ lit "   - Italic: <em>".

Definition listTools : ListToolsResult :=
  {| tools :=
       [ {| tool_name := lit "update_cards";
            tool_description :=
              lit "After the user answers cards you've quizzed them on, use this tool to mark them answered and update their ease";
            inputSchema :=
              ObjectSchema
                [ ("answers",
                   ArraySchema
                     (ObjectSchema
                        [ ("cardId",
                           NumberSchema (lit "Id of the card to answer"));
                          ("ease",
                           NumberSchema
                             (lit "Ease of the card between 1 (Again) and 4 (Easy)")) ]
                        None)) ]%string
                None |};
         {| tool_name := lit "add_card";
            tool_description := add_card_description;
            inputSchema :=
              ObjectSchema
                [ ("front",
                   StringSchema
                     (lit "The front of the card. Must use HTML formatting only."));
                  ("back",
                   StringSchema
                     (lit "The back of the card. Must use HTML formatting only.")) ]%string
                (Some ["front"; "back"]%string) |};
         {| tool_name := lit "get_due_cards";
            tool_description :=
              lit "Returns a given number (num) of cards due for review.";
            inputSchema :=
              ObjectSchema
                [ ("num", NumberSchema (lit "Number of due cards to get")) ]%string
                (Some ["num"]%string) |};
         {| tool_name := lit "get_new_cards";
            tool_description :=
              lit "Returns a given number (num) of new and unseen cards.";
            inputSchema :=
              ObjectSchema
                [ ("num", NumberSchema (lit "Number of new cards to get")) ]%string
                (Some ["num"]%string) |} ] |}.

(* ================================================================= *)
(** ** A sample store

    A small store used to run the handlers on concrete requests: three cards
    whose content carries markup, answers accepted when the ease is between 1
    and 4, note identifiers handed out from a counter kept in the state. *)

Definition sample_info (id : Z) : CardInfo :=
  {| info_cardId := id;
     info_question := lit "<div>Capital&nbsp;of <b>France</b>?</div>";
     info_answer :=
       lit "<style>.card { color: red }</style>Paris &amp; only Paris";
     info_due := (10 - id)%Z |}.

Definition sample_store : store Z :=
  fun c =>
    match c return Z -> result (reply c) * Z with
    | findCards _ => fun st => (Ok [1; 2; 3]%Z, st)
    | cardsInfo ids => fun st => (Ok (map sample_info ids), st)
    | answerCards l =>
        fun st =>
          (Ok (map (fun a =>
                      (1 <=? answer_ease a)%Z && (answer_ease a <=? 4)%Z) l),
           st)
    | addNote _ => fun st => (Ok (st + 1)%Z, (st + 1)%Z)
    end.

Definition sample_args : Args :=
  {| answers := []; front := []; back := []; num := Finite 2 |}.

(** The sample store with the calls selected by [fails] failing. *)
Definition failing_store (fails : call -> bool) : store Z :=
  fun c st =>
    if fails c then (Failed (lit "ECONNREFUSED"), st) else sample_store c st.

Definition is_findCards (c : call) : bool :=
  match c with findCards _ => true | _ => false end.
Definition is_cardsInfo (c : call) : bool :=
  match c with cardsInfo _ => true | _ => false end.
Definition is_addNote (c : call) : bool :=
  match c with addNote _ => true | _ => false end.

(** The pathname of the uris of the catalogue, [anki://search/<keyword>],
    as the URL parser gives it: what follows the host. *)
Definition sample_pathname (uri : jsstring) : option jsstring :=
  if startsWith (lit "anki://search") uri then Some (skipn 13 uri) else None.

(* ================================================================= *)
(** ** Vocabulary of the statements *)

(** [p] is a prefix of [s]; [p] occurs in [s]. *)
Definition has_prefix (p s : jsstring) : Prop := exists r, s = p ++ r.
Definition occurs (p s : jsstring) : Prop := exists a b, s = a ++ p ++ b.

(** The identifiers of the answers the store rejected: those paired with
    [false] in the list of booleans it returned. *)
Definition rejected_ids (l : list Answer) (result : list bool) : list Z :=
  map (fun p => answer_cardId (fst p))
      (filter (fun p => negb (snd p)) (combine l result)).

(** The five entities the normalizer decodes, their text and the character
    each one stands for. *)
Inductive entity : Type := Nbsp | Amp | Lt | Gt | Quot.

Definition entity_text (e : entity) : jsstring :=
  match e with
  | Nbsp => lit "&nbsp;"
  | Amp => lit "&amp;"
  | Lt => lit "&lt;"
  | Gt => lit "&gt;"
  | Quot => lit "&quot;"
  end.

Definition entity_char (e : entity) : char :=
  match e with
  | Nbsp => SPACE
  | Amp => AMP
  | Lt => LT
  | Gt => GT
  | Quot => QUOT
  end.

(** Content made of markup only is a sequence of pieces:
    - a tag, [<body>], whose body is not empty and holds neither [<] nor [>];
    - a style block, [<style attributes>body</style>], with the two keywords
      in any letter case, attributes that hold neither [<] nor [>], and a
      body in which no closing keyword occurs (the block ends at the first
      one);
    - one of the five entities. *)
Inductive piece : Type :=
| Tag (body : jsstring)
| StyleBlock (opening attributes body closing : jsstring)
| Entity (e : entity).

Definition piece_text (p : piece) : jsstring :=
  match p with
  | Tag body => LT :: body ++ [GT]
  | StyleBlock opening attributes body closing =>
      opening ++ attributes ++ GT :: body ++ closing
  | Entity e => entity_text e
  end.

Definition markup (ps : list piece) : jsstring := concat (map piece_text ps).

(** Equality of strings up to the case of ASCII letters, and occurrence of a
    keyword up to case. *)
Fixpoint same_ci (s pat : jsstring) : bool :=
  match s, pat with
  | [], [] => true
  | c :: s', y :: pat' => eq_char_ci y c && same_ci s' pat'
  | _, _ => false
  end.

Fixpoint occurs_ci (pat s : jsstring) : bool :=
  same_ci (firstn (length pat) s) pat
  || match s with
     | [] => false
     | _ :: s' => occurs_ci pat s'
     end.

Definition no_angle (s : jsstring) : bool :=
  forallb (fun c => negb (c =? LT)%N && negb (c =? GT)%N) s.

Definition well_formed (p : piece) : bool :=
  match p with
  | Tag body => (0 <? length body)%nat && no_angle body
  | StyleBlock opening attributes body closing =>
      same_ci opening (lit "<style") && no_angle attributes
      && negb (occurs_ci (lit "</style>") body)
      && same_ci closing (lit "</style>")
  | Entity _ => true
  end.

(** The intermediate texts of the normalizer, on such content, are sequences
    of tokens: tags and entities not yet handled, and single characters. *)
Inductive token : Type :=
| TTag (body : jsstring)
| TEnt (e : entity)
| TChr (c : char).

Definition token_text (t : token) : jsstring :=
  match t with
  | TTag body => LT :: body ++ [GT]
  | TEnt e => entity_text e
  | TChr c => [c]
  end.

Definition flat (ts : list token) : jsstring := concat (map token_text ts).

(** What each replacement does to a token. *)
Definition on_div (t : token) : token :=
  match t with
  | TTag body => if startsWith (lit "div") body then TChr NL else t
  | _ => t
  end.

Definition on_tag (t : token) : token :=
  match t with
  | TTag _ => TChr SPACE
  | _ => t
  end.

Definition entity_eqb (a b : entity) : bool :=
  match a, b with
  | Nbsp, Nbsp | Amp, Amp | Lt, Lt | Gt, Gt | Quot, Quot => true
  | _, _ => false
  end.

Definition on_entity (e0 : entity) (t : token) : token :=
  match t with
  | TEnt e => if entity_eqb e e0 then TChr (entity_char e0) else t
  | _ => t
  end.

(** The expression of an entity, as [cleanWithRegex] writes it. *)
Definition re_entity (e : entity) : regex :=
  map (fun c => One (eq_char c)) (entity_text e).

(** The character a token ends up as. *)
Definition final_char (t : token) : char :=
  match t with
  | TTag body => if startsWith (lit "div") body then NL else SPACE
  | TEnt e => entity_char e
  | TChr c => c
  end.

(** The tokens a replacement can meet: before the tags are stripped, tags,
    entities and newlines; afterwards, entities and the characters that
    stand for a tag or an entity. *)
Definition token_ok (tags : bool) (t : token) : Prop :=
  match t with
  | TTag body => tags = true /\ (0 <? length body)%nat && no_angle body = true
  | TEnt _ => True
  | TChr c =>
      if tags then c = NL else In c [NL; SPACE; AMP; LT; GT; QUOT]
  end.

(** The class a match has to start with, for an expression that starts with
    a single-unit matcher. *)
Definition trigger (r : regex) : char -> bool :=
  match r with
  | One p :: _ => p
  | _ => fun _ => true
  end.

(** The expressions the normalizer applies, in order. *)
Definition normalizer_expressions : list regex :=
  [re_style; re_div; re_tag; re_play; re_lit "&nbsp;"; re_lit "&amp;";
   re_lit "&lt;"; re_lit "&gt;"; re_lit "&quot;"].

(** [re] matches somewhere in [s]; a test for it. *)
Definition matches_in (re : regex) (s : jsstring) : Prop :=
  exists a t r, s = a ++ t /\ exec re t = Some r.

Fixpoint matches_inb (re : regex) (s : jsstring) : bool :=
  match exec re s with
  | Some _ => true
  | None =>
      match s with
      | [] => false
      | _ :: s' => matches_inb re s'
      end
  end.

(** Clean text holds nothing for the normalizer to rewrite: no style block,
    tag, play directive or entity, as its expressions recognise them. *)
Definition clean (s : jsstring) : Prop :=
  forall re, In re normalizer_expressions -> ~ matches_in re s.

(** A line as [clean_lines] leaves it: not empty, trimmed, without newline. *)
Definition clean_line (l : jsstring) : Prop :=
  l <> [] /\ trim l = l /\ ~ In NL l.

(** Ascending order of the due key. *)
Definition due_le (a b : Card) : Prop := (due a <= due b)%Z.
Definition has_due (d : Z) (c : Card) : bool := (due c =? d)%Z.

Definition tool_request (tool : string) (args : Args) : CallToolRequest :=
  {| name := lit tool; arguments := Some args |}.

(** The booleans of a reply as [update_cards] reads them for [n] answers:
    those beyond the end of the reply read as [false], those beyond [n] are
    not read. *)
Definition read_results (n : nat) (result : list bool) : list bool :=
  firstn n (result ++ repeat false n).

(** [q] is the last segment of [pathname]: what follows its last slash, or
    all of it when it has none. *)
Definition last_segment (pathname q : jsstring) : Prop :=
  (pathname = q \/ exists a, pathname = a ++ SLASH :: q) /\ ~ In SLASH q.

(** The calls that change the store. *)
Definition mutates (c : call) : bool :=
  match c with
  | answerCards _ | addNote _ => true
  | findCards _ | cardsInfo _ => false
  end.

(** The two listing tools differ in the keyword only. *)
Definition listing_tools : list (string * string) :=
  [("get_due_cards", "is:due"); ("get_new_cards", "is:new")]%string.

(** The integers that a Number holds exactly and that [Number::toString]
    prints as their decimal notation: those of magnitude at most 2^53.
    Identifiers of Anki are times in milliseconds, far below this bound. *)
Definition exact_integer (z : Z) : Prop := (Z.abs z <= 2 ^ 53)%Z.

(** A record of the store whose numbers are such integers. *)
Definition exact_card (info : CardInfo) : Prop :=
  exact_integer (info_cardId info) /\ exact_integer (info_due info).

(** Text without the characters that start a tag, an entity or a play
    directive. *)
Definition plain (s : jsstring) : Prop :=
  ~ In LT s /\ ~ In AMP s /\ ~ In LBRACKET s.

(** Text as the normalizer leaves it, whatever it was given: no white space
    at either end, no blank line, none of the entities [&lt;], [&gt;] and
    [&quot;]. *)
Definition normalized (t : jsstring) : Prop :=
  trim t = t
  /\ ~ occurs [NL; NL] t
  /\ (forall e, In e [Lt; Gt; Quot] -> ~ occurs (entity_text e) t).


(** The length of the lines of a text, each counted with the newline that
    ends or follows it. *)
Definition weight (ls : list jsstring) : nat :=
  list_sum (map (fun l => S (length l)) ls).

(* ================================================================= *)
(** ** Basic facts *)

(** Case analysis on a membership in an explicit list. *)
Ltac each_member H :=
  simpl in H; repeat (destruct H as [<- | H]); try (destruct H).

(** The numbers of an explicit list of identifiers or records are exact. *)
Ltac exact_numbers :=
  simpl; repeat constructor; unfold exact_integer; simpl; lia.

(** The bound is the last integer up to which all integers are printed
    digit by digit. *)
Remark exact_integer_bound :
  exact_integer (2 ^ 53) /\ ~ exact_integer (2 ^ 53 + 1)
  /\ number_to_string (2 ^ 53) = lit "9007199254740992".
Proof.
  unfold exact_integer. repeat split; [lia | lia].
Qed.

Lemma string_eqb_eq (a b : jsstring) : string_eqb a b = true <-> a = b.
Proof.
  revert b; induction a as [|x a IH]; intros [|y b]; simpl;
    try (split; [discriminate | discriminate]); try tauto.
  rewrite andb_true_iff, N.eqb_eq, IH.
  split; [intros [-> ->]; reflexivity | intros H; inversion H; auto].
Qed.

Lemma string_eqb_neq (a b : jsstring) : a <> b -> string_eqb a b = false.
Proof.
  intros H; destruct (string_eqb a b) eqn:E; [|reflexivity].
  apply string_eqb_eq in E; contradiction.
Qed.

Lemma startsWith_app (p r : jsstring) : startsWith p (p ++ r) = true.
Proof.
  induction p as [|a p IH]; simpl; [reflexivity|].
  now rewrite N.eqb_refl, IH.
Qed.

Lemma startsWith_prefix (p s : jsstring) :
  startsWith p s = true <-> has_prefix p s.
Proof.
  split.
  - revert s; induction p as [|a p IH]; intros s H.
    + now exists s.
    + destruct s as [|b s]; simpl in H; [discriminate|].
      apply andb_true_iff in H as [Hab Hp]. apply N.eqb_eq in Hab; subst b.
      destruct (IH _ Hp) as [r ->]. now exists r.
  - intros [r ->]. apply startsWith_app.
Qed.

(* ================================================================= *)
(** ** The query formatter *)

(** C7.  For every keyword: if it starts with [deck], the query formatter
    returns [deck:] followed by everything after the first four characters
    (possibly nothing); else if it starts with [is], it returns [is:]
    followed by everything after the first two characters; otherwise it
    returns the keyword unchanged.  So [deckMath] becomes [deck:Math],
    [isdue] becomes [is:due] and [tag:x] stays [tag:x]. *)
Theorem formatQuery_spec (q : jsstring) :
  (has_prefix (lit "deck") q -> formatQuery q = lit "deck:" ++ skipn 4 q)
  /\ (~ has_prefix (lit "deck") q -> has_prefix (lit "is") q ->
      formatQuery q = lit "is:" ++ skipn 2 q)
  /\ (~ has_prefix (lit "deck") q -> ~ has_prefix (lit "is") q ->
      formatQuery q = q)
  /\ formatQuery (lit "deckMath") = lit "deck:Math"
  /\ formatQuery (lit "isdue") = lit "is:due"
  /\ formatQuery (lit "tag:x") = lit "tag:x".
Proof.
  unfold formatQuery, slice_from.
  repeat split; try reflexivity.
  - intros Hd. apply startsWith_prefix in Hd. now rewrite Hd.
  - intros Hd Hi. apply startsWith_prefix in Hi. rewrite Hi.
    destruct (startsWith (lit "deck") q) eqn:Ed; [|reflexivity].
    apply startsWith_prefix in Ed; contradiction.
  - intros Hd Hi.
    destruct (startsWith (lit "deck") q) eqn:Ed.
    + apply startsWith_prefix in Ed; contradiction.
    + destruct (startsWith (lit "is") q) eqn:Ei; [|reflexivity].
      apply startsWith_prefix in Ei; contradiction.
Qed.

Lemma formatQuery_spec_witness :
  formatQuery (lit "deck") = lit "deck:"
  /\ formatQuery (lit "is:due") = lit "is:" ++ lit ":due"
  /\ formatQuery (lit "tag:x") = lit "tag:x".
Proof.
  assert (Hd : forall s, hd 0%N s <> 100%N -> ~ has_prefix (lit "deck") s)
    by (intros s Hs [r ->]; now apply Hs).
  assert (Hi : forall s, hd 0%N s <> 105%N -> ~ has_prefix (lit "is") s)
    by (intros s Hs [r ->]; now apply Hs).
  split; [|split].
  - apply (proj1 (formatQuery_spec (lit "deck"))). now exists [].
  - apply (proj1 (proj2 (formatQuery_spec (lit "is:due")))).
    + apply Hd. discriminate.
    + now exists (lit ":due").
  - apply (proj1 (proj2 (proj2 (formatQuery_spec (lit "tag:x"))))).
    + apply Hd. discriminate.
    + apply Hi. discriminate.
Defined.

(** The keywords the listing tools pass already hold the colon, and the
    formatter adds one more. *)
Remark formatQuery_listing_keywords :
  formatQuery (lit "is:due") = lit "is::due"
  /\ formatQuery (lit "is:new") = lit "is::new".
Proof. split; reflexivity. Qed.

(* ================================================================= *)
(** ** Facts on matching *)

Lemma star_greedy_inv (p : char -> bool) (k : jsstring -> option jsstring)
    (s r : jsstring) :
  star_greedy p k s = Some r -> exists u s', s = u ++ s' /\ k s' = Some r.
Proof.
  induction s as [|c s IH]; simpl; intros H.
  - now exists [], [].
  - destruct (p c).
    + destruct (star_greedy p k s) as [r'|] eqn:E.
      * destruct (IH H) as (u & s' & -> & Hk).
        now exists (c :: u), s'.
      * now exists [], (c :: s).
    + now exists [], (c :: s).
Qed.

Lemma star_lazy_inv (p : char -> bool) (k : jsstring -> option jsstring)
    (s r : jsstring) :
  star_lazy p k s = Some r -> exists u s', s = u ++ s' /\ k s' = Some r.
Proof.
  induction s as [|c s IH]; simpl; intros H.
  - destruct (k []) eqn:E; [|discriminate]. injection H as <-.
    now exists [], [].
  - destruct (k (c :: s)) eqn:E; [injection H as <-; now exists [], (c :: s)|].
    destruct (p c); [|discriminate].
    destruct (IH H) as (u & s' & -> & Hk). now exists (c :: u), s'.
Qed.

(** A match of [r1 ++ r2] ends with a match of [r2]. *)
Lemma exec_app_inv (r1 r2 : regex) (s r : jsstring) :
  exec (r1 ++ r2) s = Some r ->
  exists u mid, s = u ++ mid /\ exec r2 mid = Some r.
Proof.
  revert s; induction r1 as [|[p|p|p] r1 IH]; intros s H.
  - now exists [], s.
  - cbn [app exec] in H. destruct s as [|c s]; [discriminate|].
    destruct (p c); [|discriminate].
    destruct (IH _ H) as (u & mid & -> & Hm). now exists (c :: u), mid.
  - cbn [app exec] in H. apply star_greedy_inv in H as (u & s' & -> & H).
    destruct (IH _ H) as (u' & mid & -> & Hm).
    exists (u ++ u'), mid. now rewrite app_assoc.
  - cbn [app exec] in H. apply star_lazy_inv in H as (u & s' & -> & H).
    destruct (IH _ H) as (u' & mid & -> & Hm).
    exists (u ++ u'), mid. now rewrite app_assoc.
Qed.

(** An expression that starts with a single-unit matcher consumes at least
    one unit. *)
Lemma exec_consumes (p : char -> bool) (re : regex) (s r : jsstring) :
  exec (One p :: re) s = Some r -> length r < length s.
Proof.
  intros H. cbn [exec] in H. destruct s as [|c s]; [discriminate|].
  destruct (p c); [|discriminate].
  rewrite <- (app_nil_r re) in H.
  apply exec_app_inv in H as (u & mid & -> & H). injection H as ->.
  cbn [length]. rewrite length_app. lia.
Qed.

(** A greedy star over a class that the next matcher excludes stops at the
    first unit outside the class. *)
Lemma star_greedy_stop (p : char -> bool) (k : jsstring -> option jsstring)
    (u : jsstring) (c : char) (s : jsstring) :
  (forall x s', p x = true -> k (x :: s') = None) ->
  forallb p u = true -> p c = false ->
  star_greedy p k (u ++ c :: s) = k (c :: s).
Proof.
  intros Hk Hu Hc. induction u as [|x u IH]; simpl.
  - now rewrite Hc.
  - simpl in Hu. apply andb_true_iff in Hu as [Hx Hu].
    rewrite Hx, (IH Hu). destruct (k (c :: s)); [reflexivity|].
    now apply Hk.
Qed.

(** A lazy star over any unit finds a match of what follows, if there is
    one further on. *)
Lemma star_lazy_finds (k : jsstring -> option jsstring) (u s r : jsstring) :
  k s = Some r -> exists r', star_lazy any_char k (u ++ s) = Some r'.
Proof.
  intros Hk. induction u as [|c u [r' IH]].
  - exists r. destruct s; simpl; now rewrite Hk.
  - cbn [app star_lazy]. destruct (k (c :: u ++ s)) as [r''|].
    + now exists r''.
    + now exists r'.
Qed.

(** Literals. *)
Lemma exec_lit (pat : jsstring) (r2 : regex) (s : jsstring) :
  exec (map (fun c => One (eq_char c)) pat ++ r2) s
  = if startsWith pat s then exec r2 (skipn (length pat) s) else None.
Proof.
  revert s; induction pat as [|a pat IH]; intros s; [reflexivity|].
  cbn [map app exec startsWith length]. destruct s as [|c s]; [reflexivity|].
  unfold eq_char at 1. rewrite (N.eqb_sym c a).
  destruct (a =? c)%N; [apply IH | reflexivity].
Qed.

Lemma exec_lit_ci (pat : jsstring) (r2 : regex) (o rest : jsstring) :
  same_ci o pat = true ->
  exec (map (fun c => One (eq_char_ci c)) pat ++ r2) (o ++ rest)
  = exec r2 rest.
Proof.
  revert o; induction pat as [|a pat IH]; intros [|c o] H;
    try discriminate H; [reflexivity|].
  cbn [same_ci] in H. apply andb_true_iff in H as [Hc Ho].
  cbn [map app exec]. rewrite Hc. now apply IH.
Qed.

Lemma exec_lit_ci_inv (pat s r : jsstring) :
  exec (map (fun c => One (eq_char_ci c)) pat) s = Some r ->
  exists cl, s = cl ++ r /\ same_ci cl pat = true.
Proof.
  revert s; induction pat as [|a pat IH]; intros s H.
  - injection H as ->. now exists [].
  - cbn [map exec] in H. destruct s as [|c s]; [discriminate|].
    destruct (eq_char_ci a c) eqn:Hc; [|discriminate].
    destruct (IH _ H) as (cl & -> & Hcl).
    exists (c :: cl). split; [reflexivity|]. cbn [same_ci]. now rewrite Hc.
Qed.

Lemma startsWith_before (pat b : jsstring) (c : char) (rest : jsstring) :
  ~ In c pat -> startsWith pat (b ++ c :: rest) = startsWith pat b.
Proof.
  revert b; induction pat as [|a pat IH]; intros b Hc; [now destruct b|].
  destruct b as [|x b]; cbn [app startsWith].
  - destruct (N.eqb_spec a c) as [->|_]; [|reflexivity].
    exfalso; apply Hc; now left.
  - rewrite IH; [reflexivity|]. intros H; apply Hc; now right.
Qed.

(** Strings equal up to case have the characters without case at the same
    places. *)
Lemma same_ci_length (s pat : jsstring) :
  same_ci s pat = true -> length s = length pat.
Proof.
  revert pat; induction s as [|c s IH]; intros [|a pat] H;
    try discriminate H; [reflexivity|].
  cbn [same_ci] in H. apply andb_true_iff in H as [_ H].
  simpl. now rewrite (IH _ H).
Qed.

Lemma same_ci_caseless (z : char) (s pat : jsstring) :
  (z < 65 \/ 122 < z \/ (90 < z /\ z < 97))%N ->
  same_ci s pat = true ->
  map (fun c => (c =? z)%N) s = map (fun c => (c =? z)%N) pat.
Proof.
  intros Hz. revert pat; induction s as [|c s IH]; intros [|a pat] H;
    try discriminate H; [reflexivity|].
  cbn [same_ci] in H. apply andb_true_iff in H as [Hc H].
  cbn [map]. rewrite (IH _ H). f_equal.
  unfold eq_char_ci, canonicalize in Hc. apply N.eqb_eq in Hc.
  destruct ((97 <=? c)%N && (c <=? 122)%N) eqn:Ec;
    destruct ((97 <=? a)%N && (a <=? 122)%N) eqn:Ea;
    try (apply andb_true_iff in Ec as [E1 E2]; apply N.leb_le in E1, E2);
    try (apply andb_true_iff in Ea as [E3 E4]; apply N.leb_le in E3, E4);
    destruct (N.eqb_spec c z), (N.eqb_spec a z); try reflexivity; lia.
Qed.

(* ================================================================= *)
(** ** Global replacement *)

Section Replace.

Variables (re : regex) (rep : jsstring).

Lemma exec_untriggered (c : char) (s : jsstring) :
  trigger re c = false -> exec re (c :: s) = None.
Proof.
  destruct re as [|[p|p|p] r]; simpl; try discriminate.
  now intros ->.
Qed.

Lemma replace_from_skip (n : nat) (s : jsstring) :
  replace_from re rep n s = replace_from re rep 0 (skipn n s).
Proof.
  revert n; induction s as [|c s IH]; intros [|n]; try reflexivity.
  cbn [replace_from skipn]. apply IH.
Qed.

Lemma replace_miss (c : char) (s : jsstring) :
  exec re (c :: s) = None ->
  replace re rep (c :: s) = c :: replace re rep s.
Proof. unfold replace; cbn [replace_from]. now intros ->. Qed.

Lemma replace_hit (u rest : jsstring) :
  u <> [] -> exec re (u ++ rest) = Some rest ->
  replace re rep (u ++ rest) = rep ++ replace re rep rest.
Proof.
  destruct u as [|c u]; [congruence|]. intros _ H.
  unfold replace. cbn [app replace_from]. cbn [app] in H. rewrite H.
  rewrite replace_from_skip. do 2 f_equal.
  rewrite length_app, Nat.add_sub.
  now rewrite skipn_app, skipn_all, Nat.sub_diag.
Qed.

Lemma replace_untriggered (u s : jsstring) :
  Forall (fun c => trigger re c = false) u ->
  replace re rep (u ++ s) = u ++ replace re rep s.
Proof.
  induction 1 as [|c u Hc Hu IH]; [reflexivity|].
  cbn [app]. rewrite replace_miss by now apply exec_untriggered.
  now rewrite IH.
Qed.

End Replace.

(* ================================================================= *)
(** ** The clean-up of lines *)

Lemma trimStart_length (s : jsstring) : length (trimStart s) <= length s.
Proof.
  induction s as [|c s IH]; simpl; [lia|].
  destruct (is_white_space c); simpl; lia.
Qed.

Lemma trimStart_In (x : char) (s : jsstring) : In x (trimStart s) -> In x s.
Proof.
  induction s as [|c s IH]; simpl; [tauto|].
  destruct (is_white_space c); simpl; tauto.
Qed.

Lemma trimStart_idem (s : jsstring) : trimStart (trimStart s) = trimStart s.
Proof.
  induction s as [|c s IH]; simpl; [reflexivity|].
  destruct (is_white_space c) eqn:E; [exact IH|].
  simpl. now rewrite E.
Qed.

Lemma trimStart_fixed_head (c : char) (s : jsstring) :
  trimStart (c :: s) = c :: s -> is_white_space c = false.
Proof.
  simpl. destruct (is_white_space c); [|reflexivity].
  intros H. pose proof (trimStart_length s) as L. rewrite H in L.
  simpl in L. lia.
Qed.

Lemma trimStart_snoc (c : char) (u : jsstring) :
  is_white_space c = false -> exists w, trimStart (u ++ [c]) = w ++ [c].
Proof.
  intros Hc. induction u as [|x u [w IH]]; simpl.
  - rewrite Hc. now exists [].
  - destruct (is_white_space x); [now exists w|].
    now exists (x :: u).
Qed.

Lemma trimEnd_keeps_start (a : jsstring) :
  trimStart a = a -> trimStart (trimEnd a) = trimEnd a.
Proof.
  destruct a as [|c a]; [reflexivity|]. intros H.
  apply trimStart_fixed_head in H. unfold trimEnd. cbn [rev].
  destruct (trimStart_snoc c (rev a) H) as [w ->].
  rewrite rev_app_distr. simpl. now rewrite H.
Qed.

Lemma trim_trimmed (s : jsstring) :
  trimStart (trim s) = trim s /\ trimStart (rev (trim s)) = rev (trim s).
Proof.
  unfold trim. split.
  - apply trimEnd_keeps_start, trimStart_idem.
  - unfold trimEnd. rewrite rev_involutive. apply trimStart_idem.
Qed.

Lemma trim_fixed (t : jsstring) :
  trimStart t = t -> trimStart (rev t) = rev t -> trim t = t.
Proof.
  intros H1 H2. unfold trim, trimEnd. rewrite H1, H2. apply rev_involutive.
Qed.

Lemma trim_In (x : char) (s : jsstring) : In x (trim s) -> In x s.
Proof.
  unfold trim, trimEnd. intros H.
  apply in_rev, trimStart_In, in_rev, trimStart_In in H. exact H.
Qed.

Lemma split_pieces (sep : char) (s : jsstring) :
  Forall (fun l => ~ In sep l) (split sep s).
Proof.
  induction s as [|c s IH]; simpl.
  - constructor; [tauto | constructor].
  - destruct (N.eqb_spec c sep) as [->|Hc].
    + constructor; [tauto | exact IH].
    + destruct (split sep s) as [|l ls]; [repeat constructor; simpl; tauto|].
      inversion IH as [|? ? Hl Hls]; subst.
      constructor; [simpl; tauto | exact Hls].
Qed.

Lemma split_app_sep (sep : char) (l r : jsstring) :
  ~ In sep l -> split sep (l ++ sep :: r) = l :: split sep r.
Proof.
  induction l as [|c l IH]; intros Hl; simpl.
  - now rewrite N.eqb_refl.
  - destruct (N.eqb_spec c sep) as [->|Hc]; [exfalso; apply Hl; now left|].
    rewrite IH; [reflexivity|]. intros H; apply Hl; now right.
Qed.

Lemma split_one (sep : char) (l : jsstring) :
  ~ In sep l -> split sep l = [l].
Proof.
  induction l as [|c l IH]; intros Hl; simpl; [reflexivity|].
  destruct (N.eqb_spec c sep) as [->|Hc]; [exfalso; apply Hl; now left|].
  rewrite IH; [reflexivity|]. intros H; apply Hl; now right.
Qed.

Lemma split_join (sep : char) (ls : list jsstring) :
  ls <> [] -> Forall (fun l => ~ In sep l) ls ->
  split sep (join [sep] ls) = ls.
Proof.
  induction ls as [|l ls IH]; [congruence|]. intros _ H.
  inversion H as [|? ? Hl Hls]; subst.
  destruct ls as [|l' ls]; [now apply split_one|].
  cbn [join app]. rewrite split_app_sep by exact Hl.
  f_equal. apply IH; [discriminate | exact Hls].
Qed.

Lemma clean_lines_of_clean (ls : list jsstring) :
  Forall clean_line ls -> clean_lines (join [NL] ls) = join [NL] ls.
Proof.
  intros H. unfold clean_lines. destruct ls as [|l ls]; [reflexivity|].
  rewrite split_join;
    [|discriminate | eapply Forall_impl; [|exact H]; intros ? (_ & _ & ?); auto].
  f_equal. remember (l :: ls) as lines eqn:E. clear E.
  induction H as [|x xs (Hne & Htrim & _) _ IH]; [reflexivity|].
  cbn [map filter]. rewrite Htrim, IH.
  destruct x; [congruence | reflexivity].
Qed.

Lemma clean_lines_are_clean (s : jsstring) :
  Forall clean_line
    (filter (fun line => (0 <? length line)%nat) (map trim (split NL s))).
Proof.
  pose proof (split_pieces NL s) as H.
  induction H as [|l ls Hl _ IH]; [constructor|].
  cbn [map filter]. destruct (trim l) as [|c t] eqn:E; [exact IH|].
  cbn [length Nat.ltb Nat.leb]. constructor; [|exact IH].
  rewrite <- E. repeat split.
  - rewrite E; discriminate.
  - destruct (trim_trimmed l). now apply trim_fixed.
  - intros Hin. apply Hl. now apply trim_In.
Qed.

Lemma clean_lines_idem (s : jsstring) :
  clean_lines (clean_lines s) = clean_lines s.
Proof.
  unfold clean_lines at 2 3.
  apply clean_lines_of_clean, clean_lines_are_clean.
Qed.

(* ================================================================= *)
(** ** Idempotence of the normalizer *)

Lemma eq_char_ci_caseless (z c : char) :
  (z < 65 \/ 122 < z \/ (90 < z /\ z < 97))%N ->
  eq_char_ci z c = (c =? z)%N.
Proof.
  intros Hz. unfold eq_char_ci, canonicalize.
  destruct ((97 <=? z)%N && (z <=? 122)%N) eqn:Ez.
  { apply andb_true_iff in Ez as [E1 E2].
    apply N.leb_le in E1, E2. lia. }
  destruct ((97 <=? c)%N && (c <=? 122)%N) eqn:Ec; [|reflexivity].
  apply andb_true_iff in Ec as [E1 E2]. apply N.leb_le in E1, E2.
  destruct (N.eqb_spec (c - 32) z), (N.eqb_spec c z); try reflexivity; lia.
Qed.

Lemma replace_no_match (re : regex) (rep s : jsstring) :
  ~ matches_in re s -> replace re rep s = s.
Proof.
  induction s as [|c s IH]; intros H; [reflexivity|].
  rewrite replace_miss.
  - f_equal. apply IH. intros (a & t & r & -> & Hex).
    apply H. now exists (c :: a), t, r.
  - destruct (exec re (c :: s)) as [r|] eqn:E; [|reflexivity].
    exfalso. apply H. now exists [], (c :: s), r.
Qed.

Lemma matches_inb_false (re : regex) (s : jsstring) :
  matches_inb re s = false -> ~ matches_in re s.
Proof.
  intros H (a & t & r & -> & Hex). induction a as [|c a IH].
  - cbn [app] in H. destruct t; cbn [matches_inb] in H; now rewrite Hex in H.
  - apply IH. cbn [app matches_inb] in H.
    now destruct (exec re (c :: a ++ t)).
Qed.

Lemma strip_markup_clean (s : jsstring) : clean s -> strip_markup s = s.
Proof.
  intros H. unfold strip_markup.
  rewrite (replace_no_match re_style) by (apply H; simpl; auto 10).
  rewrite (replace_no_match re_div) by (apply H; simpl; auto 10).
  rewrite (replace_no_match re_tag) by (apply H; simpl; auto 10).
  rewrite (replace_no_match re_play) by (apply H; simpl; auto 10).
  rewrite (replace_no_match (re_lit "&nbsp;")) by (apply H; simpl; auto 10).
  rewrite (replace_no_match (re_lit "&amp;")) by (apply H; simpl; auto 10).
  rewrite (replace_no_match (re_lit "&lt;")) by (apply H; simpl; auto 10).
  rewrite (replace_no_match (re_lit "&gt;")) by (apply H; simpl; auto 10).
  rewrite (replace_no_match (re_lit "&quot;")) by (apply H; simpl; auto 10).
  reflexivity.
Qed.

(** Text without [<], [&] and [[] is clean. *)
Lemma plain_is_clean (s : jsstring) :
  ~ In LT s -> ~ In AMP s -> ~ In LBRACKET s -> clean s.
Proof.
  intros Hlt Hamp Hbr re Hre (a & t & r & -> & Hex).
  destruct t as [|c t].
  { each_member Hre; discriminate Hex. }
  assert (Hc : In c (a ++ c :: t)) by apply in_elt.
  assert (E : trigger re c = false).
  { each_member Hre;
      try (change (trigger re_style c) with (eq_char_ci LT c);
           rewrite eq_char_ci_caseless by (left; reflexivity));
      apply N.eqb_neq; intros ->; contradiction. }
  rewrite (exec_untriggered re c t E) in Hex. discriminate Hex.
Qed.

(** C1, as the code has it.  Normalizing is idempotent on every input whose
    normalized text is clean, that is, holds nothing for the normalizer to
    rewrite (no style block, tag, play directive or entity): normalizing
    clean text again changes nothing. *)
Theorem cleanWithRegex_idempotent_when_clean (x : jsstring) :
  clean (cleanWithRegex x) ->
  cleanWithRegex (cleanWithRegex x) = cleanWithRegex x.
Proof.
  intros H.
  unfold cleanWithRegex at 1. rewrite (strip_markup_clean _ H).
  unfold cleanWithRegex. apply clean_lines_idem.
Qed.

Lemma cleanWithRegex_idempotent_when_clean_witness :
  cleanWithRegex (lit "<div>1 &lt; 2 &amp; 3</div>") = lit "1 < 2 & 3"
  /\ cleanWithRegex (cleanWithRegex (lit "<div>1 &lt; 2 &amp; 3</div>"))
     = cleanWithRegex (lit "<div>1 &lt; 2 &amp; 3</div>").
Proof.
  split; [reflexivity|].
  apply cleanWithRegex_idempotent_when_clean.
  intros re Hre. apply matches_inb_false. each_member Hre; reflexivity.
Defined.

(** C1 as stated fails: an escaped ampersand is decoded one level at each
    pass, and an escaped tag is decoded by the first pass and stripped by
    the second. *)
Lemma cleanWithRegex_not_idempotent :
  cleanWithRegex (lit "&amp;amp;") = lit "&amp;"
  /\ cleanWithRegex (cleanWithRegex (lit "&amp;amp;")) = lit "&"
  /\ cleanWithRegex (cleanWithRegex (lit "&amp;amp;"))
     <> cleanWithRegex (lit "&amp;amp;").
Proof.
  repeat split; try (vm_compute; reflexivity). vm_compute. discriminate.
Qed.

(* ================================================================= *)
(** ** A replacement over tokens *)

Lemma flat_cons (t : token) (ts : list token) :
  flat (t :: ts) = token_text t ++ flat ts.
Proof. reflexivity. Qed.

Lemma flat_chars (ts : list token) : flat (map TChr (map final_char ts))
  = map final_char ts.
Proof.
  induction ts as [|t ts IH]; [reflexivity|].
  cbn [map]. rewrite flat_cons, IH. reflexivity.
Qed.

Section ReplaceTokens.

Variables (re : regex) (rep : jsstring).
Variables (good : token -> Prop) (f : token -> token).

(** Each token is either matched as a whole, and replaced, or left as it is
    because no match starts in it. *)
Hypothesis step :
  forall t ts, good t -> Forall good ts ->
    (token_text t <> []
     /\ exec re (token_text t ++ flat ts) = Some (flat ts)
     /\ token_text (f t) = rep)
    \/ (exists c u,
          token_text t = c :: u
          /\ exec re (c :: u ++ flat ts) = None
          /\ Forall (fun x => trigger re x = false) u
          /\ f t = t).

Lemma replace_tokens (ts : list token) :
  Forall good ts -> replace re rep (flat ts) = flat (map f ts).
Proof.
  induction 1 as [|t ts Ht Hts IH]; [reflexivity|].
  cbn [map]. rewrite !flat_cons.
  destruct (step t ts Ht Hts) as [(Hne & Hex & Hf)|(c & u & Ht' & Hex & Hu & Hf)].
  - rewrite (replace_hit re rep _ _ Hne Hex), IH, Hf. reflexivity.
  - rewrite Hf, Ht'. cbn [app].
    rewrite (replace_miss re rep _ _ Hex), (replace_untriggered re rep _ _ Hu), IH.
    reflexivity.
Qed.

End ReplaceTokens.

Lemma no_angle_forall (s : jsstring) :
  no_angle s = true ->
  Forall (fun c => (c =? LT)%N = false) s
  /\ forallb (neq_char GT) s = true.
Proof.
  unfold no_angle. induction s as [|c s IH]; cbn [forallb]; [now split|].
  intros H. apply andb_true_iff in H as [Hc Hs].
  apply andb_true_iff in Hc as [H1 H2]. destruct (IH Hs) as [I1 I2].
  split.
  - constructor; [now apply negb_true_iff in H1 | exact I1].
  - unfold neq_char at 1. now rewrite H2, I2.
Qed.

Lemma tag_tail_untriggered (body : jsstring) :
  no_angle body = true ->
  Forall (fun c => (c =? LT)%N = false) (body ++ [GT]).
Proof.
  intros H. apply Forall_app. split; [now apply no_angle_forall|].
  now repeat constructor.
Qed.

Lemma entity_text_cons (e : entity) :
  exists u, entity_text e = AMP :: u
            /\ Forall (fun c => (c =? LT)%N = false) u
            /\ Forall (fun c => (c =? AMP)%N = false) u
            /\ Forall (fun c => (c =? LBRACKET)%N = false) (AMP :: u).
Proof.
  destruct e; eexists; (split; [reflexivity|]); repeat split;
    repeat constructor.
Qed.

(** [<div[^>]*>] and [<[^>]+>] on a tag. *)
Lemma exec_div_tag (body rest : jsstring) :
  no_angle body = true ->
  exec re_div (LT :: body ++ [GT] ++ rest)
  = if startsWith (lit "div") body then Some rest else None.
Proof.
  intros Hb. unfold re_div, re_lit. rewrite exec_lit.
  change (startsWith (lit "<div") (LT :: body ++ [GT] ++ rest))
    with (startsWith (lit "div") (body ++ GT :: rest)).
  rewrite startsWith_before
    by (simpl; intros [H|[H|[H|[]]]]; discriminate H).
  destruct (startsWith (lit "div") body) eqn:E; [|reflexivity].
  apply startsWith_prefix in E as [b' ->].
  change (skipn (length (lit "<div")) (LT :: (lit "div" ++ b') ++ [GT] ++ rest))
    with (b' ++ GT :: rest).
  cbn [exec]. rewrite star_greedy_stop.
  - unfold eq_char. now rewrite N.eqb_refl.
  - intros x s' Hx. unfold neq_char in Hx. unfold eq_char.
    apply negb_true_iff in Hx. now rewrite Hx.
  - apply no_angle_forall.
    unfold no_angle in *. rewrite forallb_app in Hb.
    now apply andb_true_iff in Hb.
  - unfold neq_char. now rewrite N.eqb_refl.
Qed.

Lemma exec_tag_tag (body rest : jsstring) :
  (0 <? length body)%nat && no_angle body = true ->
  exec re_tag (LT :: body ++ [GT] ++ rest) = Some rest.
Proof.
  intros H. apply andb_true_iff in H as [Hlen Hb].
  destruct body as [|b0 body]; [discriminate Hlen|].
  destruct (no_angle_forall _ Hb) as [_ Hgt].
  cbn [forallb] in Hgt. apply andb_true_iff in Hgt as [H0 Hgt].
  unfold re_tag. cbn [app exec]. unfold eq_char at 1. rewrite N.eqb_refl, H0.
  rewrite star_greedy_stop.
  - unfold eq_char. now rewrite N.eqb_refl.
  - intros x s' Hx. unfold neq_char in Hx. unfold eq_char.
    apply negb_true_iff in Hx. now rewrite Hx.
  - exact Hgt.
  - unfold neq_char. now rewrite N.eqb_refl.
Qed.

(* ================================================================= *)
(** ** The replacements, token by token *)

Lemma div_stage (ts : list token) :
  Forall (token_ok true) ts ->
  replace re_div [NL] (flat ts) = flat (map on_div ts).
Proof.
  apply replace_tokens. intros [body|e|c] ts' Ht _.
  - destruct Ht as [_ Hwf]. apply andb_true_iff in Hwf as [_ Hb].
    pose proof (exec_div_tag body (flat ts') Hb) as Hex.
    cbn [token_text on_div]. destruct (startsWith (lit "div") body).
    + left. split; [discriminate|]. split; [|reflexivity].
      cbn [app]. rewrite <- app_assoc. exact Hex.
    + right. exists LT, (body ++ [GT]). split; [reflexivity|].
      split; [rewrite <- app_assoc; exact Hex|].
      split; [now apply tag_tail_untriggered | reflexivity].
  - right. destruct (entity_text_cons e) as (u & E & Hlt & _).
    exists AMP, u. cbn [token_text]. rewrite E. repeat split; assumption.
  - right. simpl in Ht. subst c. exists NL, []. repeat split. constructor.
Qed.

Lemma tag_stage (ts : list token) :
  Forall (token_ok true) ts ->
  replace re_tag [SPACE] (flat ts) = flat (map on_tag ts).
Proof.
  apply replace_tokens. intros [body|e|c] ts' Ht _.
  - destruct Ht as [_ Hwf]. left. cbn [token_text on_tag app].
    rewrite <- app_assoc. rewrite (exec_tag_tag _ _ Hwf).
    split; [discriminate|]. split; reflexivity.
  - right. destruct (entity_text_cons e) as (u & E & Hlt & _).
    exists AMP, u. cbn [token_text]. rewrite E. repeat split; assumption.
  - right. simpl in Ht. subst c. exists NL, []. repeat split. constructor.
Qed.

Lemma play_stage (ts : list token) :
  Forall (token_ok false) ts -> replace re_play [] (flat ts) = flat ts.
Proof.
  intros H. rewrite <- (map_id ts) at 2. revert ts H.
  apply replace_tokens. intros [body|e|c] ts' Ht _.
  - destruct Ht as [Ht _]. discriminate Ht.
  - right. destruct (entity_text_cons e) as (u & E & _ & _ & Hbr).
    exists AMP, u. cbn [token_text]. rewrite E.
    inversion Hbr as [|? ? H1 H2]; subst. repeat split; assumption.
  - right. exists c, []. repeat split; [|constructor].
    apply exec_untriggered. each_member Ht; reflexivity.
Qed.

Lemma entity_stage (e0 : entity) (ts : list token) :
  Forall (token_ok false) ts ->
  replace (re_entity e0) [entity_char e0] (flat ts)
  = flat (map (on_entity e0) ts).
Proof.
  apply replace_tokens. intros [body|e|c] ts' Ht Hts.
  - destruct Ht as [Ht _]. discriminate Ht.
  - destruct (entity_eqb e e0) eqn:E.
    + left. destruct e, e0; try discriminate E; repeat split; discriminate.
    + right. destruct e, e0; try discriminate E;
        (eexists; eexists; split; [reflexivity|]; repeat split;
         repeat constructor).
  - right. exists c, []. repeat split; [|constructor].
    each_member Ht; try (apply exec_untriggered; destruct e0; reflexivity).
    destruct Hts as [|[body|e|c] ts' Ht _].
    + destruct e0; reflexivity.
    + destruct Ht as [Ht _]. discriminate Ht.
    + destruct e0, e; reflexivity.
    + each_member Ht; destruct e0; reflexivity.
Qed.

Lemma on_div_ok (t : token) : token_ok true t -> token_ok true (on_div t).
Proof.
  destruct t as [body|e|c]; cbn [on_div]; auto.
  destruct (startsWith (lit "div") body); [reflexivity | auto].
Qed.

Lemma on_tag_ok (t : token) : token_ok true t -> token_ok false (on_tag t).
Proof.
  destruct t as [body|e|c]; cbn [on_tag token_ok].
  - intros _. right. now left.
  - auto.
  - intros ->. now left.
Qed.

Lemma on_entity_ok (e0 : entity) (t : token) :
  token_ok false t -> token_ok false (on_entity e0 t).
Proof.
  destruct t as [body|e|c]; cbn [on_entity]; auto.
  destruct (entity_eqb e e0); auto.
  intros _. destruct e0; simpl; auto 10.
Qed.

Lemma all_stages (t : token) :
  token_ok true t ->
  on_entity Quot
    (on_entity Gt
       (on_entity Lt (on_entity Amp (on_entity Nbsp (on_tag (on_div t))))))
  = TChr (final_char t).
Proof.
  destruct t as [body|e|c]; intros _; cbn [on_div final_char].
  - now destruct (startsWith (lit "div") body).
  - now destruct e.
  - reflexivity.
Qed.

(** After the style blocks are gone, the replacements turn every token into
    its character. *)
Lemma strip_markup_tokens (s : jsstring) (ts : list token) :
  replace re_style [] s = flat ts ->
  Forall (token_ok true) ts ->
  strip_markup s = map final_char ts.
Proof.
  intros Hstyle Hts. unfold strip_markup. rewrite Hstyle.
  rewrite (div_stage _ Hts).
  assert (H1 : Forall (token_ok true) (map on_div ts)).
  { apply Forall_map. eapply Forall_impl; [|exact Hts]. apply on_div_ok. }
  rewrite (tag_stage _ H1).
  assert (H2 : Forall (token_ok false) (map on_tag (map on_div ts))).
  { apply Forall_map. eapply Forall_impl; [|exact H1]. apply on_tag_ok. }
  rewrite (play_stage _ H2).
  change (re_lit "&nbsp;") with (re_entity Nbsp).
  change (re_lit "&amp;") with (re_entity Amp).
  change (re_lit "&lt;") with (re_entity Lt).
  change (re_lit "&gt;") with (re_entity Gt).
  change (re_lit "&quot;") with (re_entity Quot).
  change [SPACE] with [entity_char Nbsp]. change [AMP] with [entity_char Amp].
  change [LT] with [entity_char Lt]. change [GT] with [entity_char Gt].
  change [QUOT] with [entity_char Quot].
  assert (Hnext : forall e l, Forall (token_ok false) l ->
                              Forall (token_ok false) (map (on_entity e) l)).
  { intros e l Hl. apply Forall_map. eapply Forall_impl; [|exact Hl].
    apply on_entity_ok. }
  rewrite (entity_stage Nbsp _ H2).
  pose proof (Hnext Nbsp _ H2) as H3. rewrite (entity_stage Amp _ H3).
  pose proof (Hnext Amp _ H3) as H4. rewrite (entity_stage Lt _ H4).
  pose proof (Hnext Lt _ H4) as H5. rewrite (entity_stage Gt _ H5).
  pose proof (Hnext Gt _ H5) as H6. rewrite (entity_stage Quot _ H6).
  rewrite !map_map. rewrite <- flat_chars. f_equal.
  rewrite map_map. apply map_ext_in. intros t Ht. apply all_stages.
  rewrite Forall_forall in Hts. now apply Hts.
Qed.

(* ================================================================= *)
(** ** Where a closing keyword can occur in markup *)

Lemma app_eq_length (A : Type) (a a' b b' : list A) :
  length a = length a' -> a ++ b = a' ++ b' -> a = a' /\ b = b'.
Proof.
  revert a'; induction a as [|x a IH]; intros [|y a'] Hlen H;
    try discriminate Hlen; [now split|].
  injection H as -> H. injection Hlen as Hlen.
  destruct (IH _ Hlen H) as [-> ->]. now split.
Qed.

Lemma split_at_first (A : Type) (x : A) (u1 r1 u2 r2 : list A) :
  ~ In x u1 -> ~ In x u2 -> u1 ++ x :: r1 = u2 ++ x :: r2 ->
  u1 = u2 /\ r1 = r2.
Proof.
  revert u2; induction u1 as [|a u1 IH]; intros [|b u2] H1 H2 H.
  - injection H as ->. now split.
  - injection H as -> _. exfalso; apply H2; now left.
  - injection H as -> _. exfalso; apply H1; now left.
  - injection H as -> H.
    destruct (IH u2) as [-> ->]; [| |exact H|now split];
      intros Hin; [apply H1|apply H2]; now right.
Qed.

Lemma split_after_prefix (A : Type) (x : A) (p q u l : list A) :
  ~ In x p -> p ++ q = u ++ x :: l -> exists q', u = p ++ q' /\ q = q' ++ x :: l.
Proof.
  revert u; induction p as [|a p IH]; intros u Hp H.
  - now exists u.
  - destruct u as [|b u].
    + injection H as -> _. exfalso; apply Hp; now left.
    + injection H as -> H.
      destruct (IH u) as (q' & -> & ->); [|exact H|now exists q'].
      intros Hin; apply Hp; now right.
Qed.

Lemma occurs_ci_false (pat s a c b : jsstring) :
  occurs_ci pat s = false -> s = a ++ c ++ b -> same_ci c pat = true -> False.
Proof.
  intros Hocc -> Hc. induction a as [|x a IH].
  - cbn [app] in Hocc. destruct (c ++ b) eqn:E;
      cbn [occurs_ci] in Hocc; apply orb_false_iff in Hocc as [H _];
      rewrite <- E, <- (same_ci_length _ _ Hc), firstn_app, Nat.sub_diag,
        firstn_all, firstn_O, app_nil_r in H; congruence.
  - cbn [app occurs_ci] in Hocc. apply orb_false_iff in Hocc as [_ H].
    now apply IH.
Qed.

(** The shape of the two keywords of a style block. *)
Lemma closing_shape (cl : jsstring) :
  same_ci cl (lit "</style>") = true ->
  exists m, cl = LT :: 47%N :: m ++ [GT]
            /\ ~ In LT (47%N :: m ++ [GT])
            /\ ~ In GT (LT :: 47%N :: m)
            /\ length cl = 8.
Proof.
  intros H.
  pose proof (same_ci_length _ _ H) as Hlen.
  pose proof (same_ci_caseless LT _ _ (or_introl eq_refl) H) as Hlt.
  pose proof (same_ci_caseless GT _ _ (or_introl eq_refl) H) as Hgt.
  pose proof (same_ci_caseless 47%N _ _ (or_introl eq_refl) H) as Hsl.
  destruct cl as [|c0 [|c1 [|c2 [|c3 [|c4 [|c5 [|c6 [|c7 [|]]]]]]]]];
    try discriminate Hlen.
  change (map (fun c => (c =? LT)%N) (lit "</style>"))
    with [true; false; false; false; false; false; false; false] in Hlt.
  change (map (fun c => (c =? GT)%N) (lit "</style>"))
    with [false; false; false; false; false; false; false; true] in Hgt.
  change (map (fun c => (c =? 47)%N) (lit "</style>"))
    with [false; true; false; false; false; false; false; false] in Hsl.
  cbn [map] in Hlt, Hgt, Hsl.
  injection Hlt as L0 L1 L2 L3 L4 L5 L6 L7.
  injection Hgt as G0 G1 G2 G3 G4 G5 G6 G7.
  injection Hsl as _ S1 _ _ _ _ _ _.
  apply N.eqb_eq in L0, G7, S1. subst c0 c7 c1.
  apply N.eqb_neq in L2, L3, L4, L5, L6, G2, G3, G4, G5, G6.
  exists [c2; c3; c4; c5; c6]. split; [reflexivity|].
  split; [|split; [|reflexivity]]; simpl; intros Hin;
    repeat (destruct Hin as [Hin|Hin]; [try discriminate Hin; congruence|]);
    exact Hin.
Qed.

Lemma opening_shape (o : jsstring) :
  same_ci o (lit "<style") = true ->
  exists c m, o = LT :: c :: m
              /\ c <> 47%N
              /\ ~ In LT (c :: m)
              /\ forallb (neq_char GT) o = true.
Proof.
  intros H.
  pose proof (same_ci_length _ _ H) as Hlen.
  pose proof (same_ci_caseless LT _ _ (or_introl eq_refl) H) as Hlt.
  pose proof (same_ci_caseless GT _ _ (or_introl eq_refl) H) as Hgt.
  pose proof (same_ci_caseless 47%N _ _ (or_introl eq_refl) H) as Hsl.
  destruct o as [|c0 [|c1 [|c2 [|c3 [|c4 [|c5 [|]]]]]]];
    try discriminate Hlen.
  change (map (fun c => (c =? LT)%N) (lit "<style"))
    with [true; false; false; false; false; false] in Hlt.
  change (map (fun c => (c =? GT)%N) (lit "<style"))
    with [false; false; false; false; false; false] in Hgt.
  change (map (fun c => (c =? 47)%N) (lit "<style"))
    with [false; false; false; false; false; false] in Hsl.
  cbn [map] in Hlt, Hgt, Hsl.
  injection Hlt as L0 L1 L2 L3 L4 L5.
  injection Hgt as G0 G1 G2 G3 G4 G5.
  injection Hsl as _ S1 _ _ _ _.
  apply N.eqb_eq in L0. subst c0.
  apply N.eqb_neq in L1, L2, L3, L4, L5, S1.
  exists c1, [c2; c3; c4; c5]. split; [reflexivity|].
  split; [exact S1|]. split.
  - simpl; intros Hin.
    repeat (destruct Hin as [Hin|Hin]; [congruence|]). exact Hin.
  - cbn [forallb]. unfold neq_char. now rewrite G0, G1, G2, G3, G4, G5.
Qed.

Lemma entity_no_LT (e : entity) : ~ In LT (entity_text e).
Proof. destruct e; simpl; intuition discriminate. Qed.

Lemma no_angle_In (s : jsstring) :
  no_angle s = true -> ~ In LT s /\ ~ In GT s.
Proof.
  unfold no_angle. rewrite forallb_forall. intros H.
  split; intros Hin; apply H in Hin; discriminate Hin.
Qed.

Lemma markup_cons (p : piece) (ps : list piece) :
  markup (p :: ps) = piece_text p ++ markup ps.
Proof. reflexivity. Qed.

Lemma closing_boundary (ps : list piece) :
  forallb well_formed ps = true ->
  forall u cl r,
    markup ps = u ++ cl ++ r -> same_ci cl (lit "</style>") = true ->
    exists ps1 ps2, ps = ps1 ++ ps2 /\ ps1 <> [] /\ r = markup ps2.
Proof.
  induction ps as [|p rest IH]; intros Hwf u cl r H Hcl.
  - destruct (closing_shape _ Hcl) as (m & -> & _). destruct u; discriminate H.
  - cbn [forallb] in Hwf. apply andb_true_iff in Hwf as [Hp Hrest].
    rewrite markup_cons in H.
    assert (Later : forall l, markup rest = l ++ cl ++ r ->
              exists ps1 ps2, p :: rest = ps1 ++ ps2 /\ ps1 <> [] /\ r = markup ps2).
    { intros l Hl. destruct (IH Hrest l cl r Hl Hcl) as (ps1 & ps2 & -> & _ & ->).
      exists (p :: ps1), ps2. repeat split. discriminate. }
    assert (Here : r = markup rest ->
              exists ps1 ps2, p :: rest = ps1 ++ ps2 /\ ps1 <> [] /\ r = markup ps2).
    { intros ->. exists [p], rest. repeat split. discriminate. }
    apply app_eq_app in H as [l [[HX HY] | [HX HY]]]; [|now apply (Later l)].
    destruct l as [|x l]; [apply (Later []); now rewrite HY|].
    destruct (closing_shape _ Hcl) as (m & Ecl & HnoLT & HnoGT & Hlen8).
    assert (Hx : x = LT) by (rewrite Ecl in HY; now injection HY).
    subst x.
    destruct p as [body | o a b c | e].
    + (* a tag: it is the closing keyword itself *)
      cbn [piece_text well_formed] in HX, Hp.
      apply andb_true_iff in Hp as [_ Hb].
      destruct (no_angle_In _ Hb) as [Hblt Hbgt].
      destruct u as [|y u].
      * injection HX as <-. apply Here.
        rewrite Ecl in HY. cbn [app] in HY. injection HY as HY.
        rewrite <- !app_assoc in HY.
        change (47%N :: m ++ [GT] ++ r) with ((47%N :: m) ++ GT :: r) in HY.
        cbn [app] in HY.
        assert (Hm : ~ In GT (47%N :: m)) by (intros Hin; apply HnoGT; now right).
        exact (proj2 (split_at_first _ GT (47%N :: m) r body (markup rest)
                        Hm Hbgt HY)).
      * injection HX as <- HX. exfalso.
        assert (Hin : In LT (body ++ [GT])) by (rewrite HX; apply in_elt).
        apply in_app_or in Hin as [Hin|[Hin|[]]]; [now apply Hblt | discriminate Hin].
    + (* a style block: only its own closing keyword *)
      cbn [piece_text well_formed] in HX, Hp.
      apply andb_true_iff in Hp as [Hp Hc].
      apply andb_true_iff in Hp as [Hp Hb].
      apply andb_true_iff in Hp as [Ho Ha].
      apply negb_true_iff in Hb.
      destruct (no_angle_In _ Ha) as [Halt Hagt].
      destruct (opening_shape _ Ho) as (o1 & om & -> & Hslash & HoLT & _).
      destruct (closing_shape _ Hc) as (mc & Ec & HcLT & _ & Hclen).
      destruct u as [|y u].
      * exfalso. injection HX as <-. rewrite Ecl in HY.
        cbn [app] in HY. injection HY as HY _. congruence.
      * injection HX as <- HX.
        assert (E : (o1 :: om) ++ a ++ GT :: b ++ c
                    = ((o1 :: om) ++ a ++ [GT]) ++ (b ++ c))
          by (now rewrite <- !app_assoc).
        cbn [app] in E, HX. rewrite E in HX. clear E.
        assert (Hpre : ~ In LT (o1 :: om ++ a ++ [GT])).
        { change (~ In LT ((o1 :: om) ++ a ++ [GT])). intros Hin.
          apply in_app_or in Hin as [Hin|Hin]; [now apply HoLT|].
          apply in_app_or in Hin as [Hin|[Hin|[]]];
            [now apply Halt | discriminate Hin]. }
        destruct (split_after_prefix _ LT _ _ _ _ Hpre HX) as (q & -> & HX').
        clear HX. rename HX' into HX.
        apply app_eq_app in HX as [l2 [[Hb2 Hl2] | [Hq Hc2]]].
        -- (* the occurrence starts in the body *)
           destruct l2 as [|z l2].
           ++ cbn [app] in Hl2. apply Here. rewrite Hl2 in HY.
              apply app_eq_length in HY as [_ HY]; [exact HY | congruence].
           ++ injection Hl2 as <- Hl2. subst l.
              change ((LT :: l2 ++ c) ++ markup rest)
                with (((LT :: l2) ++ c) ++ markup rest) in HY.
              rewrite <- app_assoc in HY.
              apply app_eq_app in HY as [l3 [[E1 E2] | [E1 E2]]].
              ** exfalso. destruct l3 as [|z l3].
                 --- rewrite app_nil_r in E1. subst cl.
                     eapply occurs_ci_false; [exact Hb | | exact Hcl].
                     rewrite Hb2. now rewrite app_nil_r.
                 --- rewrite Ec in E2. injection E2 as <- _.
                     rewrite Ecl in E1. injection E1 as E1.
                     apply HnoLT. rewrite E1. apply in_elt.
              ** exfalso. eapply occurs_ci_false; [exact Hb | | exact Hcl].
                 rewrite Hb2, E1. reflexivity.
        -- (* the occurrence starts in the closing keyword *)
           destruct l2 as [|z l2].
           ++ cbn [app] in Hc2. apply Here. rewrite <- Hc2 in HY.
              apply app_eq_length in HY as [_ HY]; [exact HY | congruence].
           ++ exfalso. rewrite Ec in Hc2. injection Hc2 as _ Hc2.
              apply HcLT. rewrite Hc2. apply in_elt.
    + (* an entity holds no angle bracket *)
      exfalso. cbn [piece_text] in HX.
      apply (entity_no_LT e). rewrite HX. apply in_elt.
Qed.

(* ================================================================= *)
(** ** The removal of style blocks *)

(** What a match of the style expression ends with. *)
Lemma exec_style_inv (s r : jsstring) :
  exec re_style s = Some r ->
  exists u cl, s = u ++ cl ++ r /\ same_ci cl (lit "</style>") = true.
Proof.
  unfold re_style. rewrite app_assoc. intros H.
  apply exec_app_inv in H as (u & mid & -> & H).
  apply exec_lit_ci_inv in H as (cl & -> & Hcl). now exists u, cl.
Qed.

(** A style block is matched where it starts. *)
Lemma exec_style_block (o a b c rest : jsstring) :
  well_formed (StyleBlock o a b c) = true ->
  exists r, exec re_style (piece_text (StyleBlock o a b c) ++ rest) = Some r.
Proof.
  cbn [well_formed piece_text]. intros Hp.
  apply andb_true_iff in Hp as [Hp Hc].
  apply andb_true_iff in Hp as [Hp _].
  apply andb_true_iff in Hp as [Ho Ha].
  rewrite <- !app_assoc. unfold re_style, re_lit_ci.
  rewrite (exec_lit_ci _ _ _ _ Ho). cbn [app exec].
  rewrite <- (app_assoc b c rest).
  rewrite star_greedy_stop.
  - rewrite eq_char_ci_caseless by (left; reflexivity).
    rewrite N.eqb_refl.
    apply (star_lazy_finds _ b (c ++ rest) rest).
    rewrite <- (app_nil_r (map _ _)).
    now rewrite (exec_lit_ci _ _ _ _ Hc).
  - intros x s' Hx. rewrite eq_char_ci_caseless by (left; reflexivity).
    unfold neq_char in Hx. apply negb_true_iff in Hx. now rewrite Hx.
  - now apply no_angle_forall.
  - unfold neq_char. now rewrite N.eqb_refl.
Qed.

Lemma style_untriggered (u : jsstring) :
  Forall (fun c => (c =? LT)%N = false) u ->
  Forall (fun c => trigger re_style c = false) u.
Proof.
  apply Forall_impl. intros c Hc.
  change (trigger re_style c) with (eq_char_ci LT c).
  now rewrite eq_char_ci_caseless by (left; reflexivity).
Qed.

(** Removing the style blocks leaves tags and entities of the input. *)
Lemma style_stage (n : nat) (ps : list piece) :
  length ps <= n ->
  forallb well_formed ps = true ->
  exists ts,
    replace re_style [] (markup ps) = flat ts
    /\ Forall (token_ok true) ts
    /\ (forall e, In (TEnt e) ts -> In (Entity e) ps).
Proof.
  revert ps; induction n as [|n IH]; intros ps Hlen Hwf.
  { destruct ps; [|simpl in Hlen; lia]. exists []. repeat split.
    - constructor.
    - intros e []. }
  destruct ps as [|p rest].
  { exists []. repeat split; [constructor | intros e []]. }
  destruct (exec re_style (markup (p :: rest))) as [r|] eqn:Hex.
  - (* a match: it ends where a piece ends *)
    destruct (exec_style_inv _ _ Hex) as (u & cl & Hs & Hcl).
    destruct (closing_boundary _ Hwf _ _ _ Hs Hcl) as (ps1 & ps2 & E & Hne & ->).
    rewrite E in Hwf, Hlen. rewrite forallb_app in Hwf.
    apply andb_true_iff in Hwf as [_ Hwf2]. rewrite length_app in Hlen.
    destruct (IH ps2) as (ts & Hts & Hok & Hent); [|exact Hwf2|].
    { destruct ps1; [congruence | simpl in Hlen; lia]. }
    exists ts. split; [|split; [exact Hok|]].
    + rewrite <- Hts. rewrite Hs in Hex |- *. rewrite app_assoc in Hex |- *.
      apply (replace_hit re_style [] _ _); [|exact Hex].
      destruct (closing_shape _ Hcl) as (m & -> & _).
      destruct u; discriminate.
    + intros e He. rewrite E. apply in_or_app. right. now apply Hent.
  - (* no match: the piece stays *)
    cbn [forallb] in Hwf. apply andb_true_iff in Hwf as [Hp Hrest].
    simpl in Hlen.
    destruct (IH rest) as (ts & Hts & Hok & Hent); [lia | exact Hrest |].
    rewrite markup_cons in Hex |- *.
    destruct p as [body | o a b c | e].
    + exists (TTag body :: ts). cbn [well_formed] in Hp.
      split; [|split].
      * rewrite flat_cons, <- Hts. cbn [piece_text token_text app] in Hex |- *.
        rewrite (replace_miss _ _ _ _ Hex).
        rewrite replace_untriggered; [reflexivity|].
        apply style_untriggered, tag_tail_untriggered.
        now apply andb_true_iff in Hp.
      * constructor; [now split | exact Hok].
      * intros e [He|He]; [discriminate He | right; now apply Hent].
    + destruct (exec_style_block o a b c (markup rest) Hp) as [r Hr].
      congruence.
    + exists (TEnt e :: ts). split; [|split].
      * rewrite flat_cons, <- Hts. cbn [piece_text token_text] in Hex |- *.
        destruct (entity_text_cons e) as (u & E & Hu & _).
        rewrite E in Hex |- *. cbn [app] in Hex |- *.
        rewrite (replace_miss _ _ _ _ Hex).
        rewrite replace_untriggered; [reflexivity|].
        now apply style_untriggered.
      * constructor; [exact I | exact Hok].
      * intros e' [He|He]; [injection He as <-; now left | right; now apply Hent].
Qed.

(* ================================================================= *)
(** ** The normalizer on markup *)

Lemma join_In (x : char) (sep : jsstring) (ls : list jsstring) :
  In x (join sep ls) -> In x sep \/ exists l, In l ls /\ In x l.
Proof.
  induction ls as [|l ls IH]; [intros []|].
  destruct ls as [|l' ls].
  - intros H. right. exists l. split; [now left | exact H].
  - cbn [join]. intros H. apply in_app_or in H as [H|H].
    + right. exists l. split; [now left | exact H].
    + apply in_app_or in H as [H|H]; [now left|].
      destruct (IH H) as [Hs|(l0 & Hl0 & Hx)]; [now left|].
      right. exists l0. split; [now right | exact Hx].
Qed.

Lemma split_In (sep x : char) (s l : jsstring) :
  In l (split sep s) -> In x l -> In x s.
Proof.
  revert l; induction s as [|c s IH]; intros l; cbn [split].
  - intros [<-|[]] [].
  - destruct (c =? sep)%N.
    + intros [<-|Hl] Hx; [destruct Hx|]. right. now apply (IH l).
    + destruct (split sep s) as [|l0 ls] eqn:E.
      * intros [<-|[]] [->|[]]. now left.
      * intros [<-|Hl] Hx.
        -- destruct Hx as [->|Hx]; [now left|]. right. apply (IH l0); [now left|exact Hx].
        -- right. apply (IH l); [now right | exact Hx].
Qed.

Lemma clean_lines_In (x : char) (s : jsstring) :
  In x (clean_lines s) -> x = NL \/ In x s.
Proof.
  unfold clean_lines. intros H.
  apply join_In in H as [[<-|[]]|(l & Hl & Hx)]; [now left|].
  right. apply filter_In in Hl as [Hl _].
  apply in_map_iff in Hl as (l0 & <- & Hl0).
  apply trim_In in Hx. now apply (split_In NL x s l0).
Qed.

(** C5, as the code has it.  On content built only from tags, style blocks
    and the five entities, the normalized text holds nothing but newlines,
    spaces and the characters the entities of the content stand for.  So it
    holds none of the five entities; and it holds no [<] unless the content
    has the entity [&lt;], which is decoded to it. *)
Theorem cleanWithRegex_markup (ps : list piece) :
  forallb well_formed ps = true ->
  let out := cleanWithRegex (markup ps) in
  (forall c, In c out ->
             c = NL \/ c = SPACE
             \/ exists e, In (Entity e) ps /\ c = entity_char e)
  /\ (forall e, ~ occurs (entity_text e) out)
  /\ (~ In (Entity Lt) ps -> ~ In LT out).
Proof.
  intros Hwf out.
  assert (Hchars : forall c, In c out ->
            c = NL \/ c = SPACE
            \/ exists e, In (Entity e) ps /\ c = entity_char e).
  { intros c Hc. unfold out, cleanWithRegex in Hc.
    apply clean_lines_In in Hc as [->|Hc]; [now left|].
    destruct (style_stage (length ps) ps (le_n _) Hwf) as (ts & Hts & Hok & Hent).
    rewrite (strip_markup_tokens _ _ Hts Hok) in Hc.
    apply in_map_iff in Hc as ([body|e|c0] & <- & Ht).
    - cbn [final_char]. destruct (startsWith (lit "div") body); auto.
    - right. right. exists e. split; [now apply Hent | reflexivity].
    - rewrite Forall_forall in Hok. apply Hok in Ht. simpl in Ht. now left. }
  split; [exact Hchars|]. split.
  - intros e (a & b & E).
    assert (Hin : In (nth 1 (entity_text e) 0%N) out).
    { rewrite E. apply in_or_app. right. apply in_or_app. left.
      destruct e; simpl; auto. }
    apply Hchars in Hin as [H|[H|(e' & _ & H)]];
      destruct e; try destruct e'; discriminate H.
  - intros Hno Hin. apply Hchars in Hin as [H|[H|(e & He & H)]];
      try discriminate H.
    destruct e; try discriminate H. contradiction.
Qed.

Lemma cleanWithRegex_markup_witness :
  ~ In LT
      (cleanWithRegex
         (markup
            [Tag (lit "div class=q"); Entity Amp;
             StyleBlock (lit "<STYLE") (lit " media=all")
               (lit "b>i { color: red } &lt;") (lit "</Style>");
             Entity Gt; Tag (lit "/div")])).
Proof.
  refine (proj2 (proj2
    (cleanWithRegex_markup
       [Tag (lit "div class=q"); Entity Amp;
        StyleBlock (lit "<STYLE") (lit " media=all")
          (lit "b>i { color: red } &lt;") (lit "</Style>");
        Entity Gt; Tag (lit "/div")] eq_refl)) _).
  simpl. intuition discriminate.
Defined.

(** C5 as stated fails: the entity [&lt;] alone is decoded to [<]. *)
Lemma cleanWithRegex_decodes_lt :
  forallb well_formed [Entity Lt] = true
  /\ markup [Entity Lt] = lit "&lt;"
  /\ cleanWithRegex (markup [Entity Lt]) = [LT]
  /\ In LT (cleanWithRegex (markup [Entity Lt])).
Proof. repeat split. now left. Qed.

(* ================================================================= *)
(** ** The resource catalogue *)

(** C4.  The catalogue has exactly three resources, with the URIs
    [anki://search/deckcurrent], [anki://search/isdue] and
    [anki://search/isnew], each with a name and a description; the first two
    declare the JSON content type under [mimeType], the third one does not:
    its content type sits under the misspelt property [mimiType]. *)
Theorem listResources_mimeType :
  map (fun r => get r "uri") (resources listResources)
  = [Some (lit "anki://search/deckcurrent"); Some (lit "anki://search/isdue");
     Some (lit "anki://search/isnew")]
  /\ Forall (fun r => get r "name" <> None /\ get r "description" <> None)
       (resources listResources)
  /\ map (fun r => get r "mimeType") (resources listResources)
     = [Some (lit "application/json"); Some (lit "application/json"); None]
  /\ map (fun r => get r "mimiType") (resources listResources)
     = [None; None; Some (lit "application/json")].
Proof.
  repeat split; try reflexivity.
  repeat constructor; discriminate.
Qed.

(* ================================================================= *)
(** ** Sorting by due key *)

Section Sorting.

Lemma sort_insert_perm (x : Card) (l : list Card) :
  Permutation (sort_insert by_due x l) (x :: l).
Proof.
  induction l as [|y l IH]; simpl; [reflexivity|].
  destruct (by_due x y <=? 0)%Z; [reflexivity|].
  rewrite IH. apply perm_swap.
Qed.

Lemma sort_perm (l : list Card) : Permutation (sort by_due l) l.
Proof.
  induction l as [|x l IH]; simpl; [reflexivity|].
  rewrite sort_insert_perm. now constructor.
Qed.

Lemma sort_insert_sorted (x : Card) (l : list Card) :
  StronglySorted due_le l -> StronglySorted due_le (sort_insert by_due x l).
Proof.
  induction 1 as [|y l Hl IH Hy]; simpl.
  - repeat constructor.
  - destruct (by_due x y <=? 0)%Z eqn:E.
    + apply Z.leb_le in E. unfold by_due in E.
      constructor; [now constructor|].
      constructor; [unfold due_le; lia|].
      eapply Forall_impl; [|exact Hy]. unfold due_le. intros; lia.
    + apply Z.leb_gt in E. unfold by_due in E.
      constructor; [exact IH|].
      eapply Permutation_Forall; [symmetry; apply sort_insert_perm|].
      constructor; [unfold due_le; lia | exact Hy].
Qed.

Lemma sort_sorted (l : list Card) : StronglySorted due_le (sort by_due l).
Proof.
  induction l as [|x l IH]; simpl; [constructor|].
  now apply sort_insert_sorted.
Qed.

(** Stability: the cards of any one due key keep their relative order. *)
Lemma sort_insert_stable (d : Z) (x : Card) (l : list Card) :
  filter (has_due d) (sort_insert by_due x l) = filter (has_due d) (x :: l).
Proof.
  induction l as [|y l IH]; [reflexivity|].
  cbn [sort_insert]. destruct (by_due x y <=? 0)%Z eqn:E; [reflexivity|].
  apply Z.leb_gt in E. unfold by_due in E.
  cbn [filter] in *. rewrite IH. unfold has_due.
  destruct (due x =? d)%Z eqn:Ex; [|reflexivity].
  apply Z.eqb_eq in Ex.
  destruct (due y =? d)%Z eqn:Ey; [|reflexivity].
  apply Z.eqb_eq in Ey. lia.
Qed.

Lemma sort_stable (d : Z) (l : list Card) :
  filter (has_due d) (sort by_due l) = filter (has_due d) l.
Proof.
  induction l as [|x l IH]; [reflexivity|].
  cbn [sort]. rewrite sort_insert_stable. cbn [filter]. now rewrite IH.
Qed.

(** A sorted list is fixed by the cards it has for each due key, in their
    order: whatever stable sort an engine runs returns what [sort] does. *)
Lemma sorted_stable_unique (l1 l2 : list Card) :
  StronglySorted due_le l1 -> StronglySorted due_le l2 ->
  (forall d, filter (has_due d) l1 = filter (has_due d) l2) ->
  l1 = l2.
Proof.
  intros H1; revert l2.
  induction H1 as [|x l1 Hs1 IH Hx]; intros l2 H2 Hf.
  - destruct l2 as [|y l2]; [reflexivity|].
    specialize (Hf (due y)). cbn [filter] in Hf. unfold has_due in Hf.
    rewrite Z.eqb_refl in Hf. discriminate Hf.
  - destruct H2 as [|y l2 Hs2 Hy].
    { specialize (Hf (due x)). cbn [filter] in Hf. unfold has_due in Hf.
      rewrite Z.eqb_refl in Hf. discriminate Hf. }
    assert (Hin : forall (a : Card) (l l' : list Card),
               (forall d, filter (has_due d) (a :: l) = filter (has_due d) l') ->
               In a l').
    { intros a l l' Hd. specialize (Hd (due a)). cbn [filter] in Hd.
      assert (Ea : has_due (due a) a = true) by apply Z.eqb_refl.
      rewrite Ea in Hd.
      assert (Ha : In a (filter (has_due (due a)) l'))
        by (rewrite <- Hd; now left).
      now apply filter_In in Ha. }
    assert (Hxy : due x = due y).
    { pose proof (Hin x l1 (y :: l2) Hf) as Ix.
      pose proof (Hin y l2 (x :: l1) (fun d => eq_sym (Hf d))) as Iy.
      rewrite Forall_forall in Hx, Hy. unfold due_le in Hx, Hy.
      destruct Ix as [->|Ix]; [reflexivity|].
      destruct Iy as [->|Iy]; [reflexivity|].
      apply Hy in Ix. apply Hx in Iy. lia. }
    assert (E : x = y).
    { specialize (Hf (due x)). cbn [filter] in Hf.
      assert (Ex : has_due (due x) x = true) by apply Z.eqb_refl.
      assert (Ey : has_due (due x) y = true)
        by (unfold has_due; rewrite Hxy; apply Z.eqb_refl).
      rewrite Ex, Ey in Hf. now injection Hf. }
    subst y. f_equal. apply IH; [exact Hs2|].
    intros d. specialize (Hf d). cbn [filter] in Hf.
    destruct (has_due d x); [now injection Hf | exact Hf].
Qed.

End Sorting.

(* ================================================================= *)
(** ** The card retriever *)

(** C6.  For every keyword, when the store answers the search with [ids] and
    the look-up of [ids] with [infos], the retriever makes exactly those two
    calls and returns the records of [infos], each projected to its
    identifier, its normalized question and answer and its due key, in
    ascending order of the due key; cards with the same due key keep the
    order the store gave them; and when the store returns one record per
    identifier, an empty list of identifiers gives an empty result. *)
Theorem findCardsAndOrder_spec (S : Type) (h : store S) (st st1 st2 : S)
    (keyword : jsstring) (ids : list Z) (infos : list CardInfo) :
  h (findCards (formatQuery keyword)) st = (Ok ids, st1) ->
  h (cardsInfo ids) st1 = (Ok infos, st2) ->
  let projected :=
    map (fun i => {| cardId := info_cardId i;
                     question := cleanWithRegex (info_question i);
                     answer := cleanWithRegex (info_answer i);
                     due := info_due i |}) infos in
  exists cards,
    run h (findCardsAndOrder keyword) st
    = (Returned cards, st2, [findCards (formatQuery keyword); cardsInfo ids])
    /\ Permutation cards projected
    /\ StronglySorted due_le cards
    /\ (forall d, filter (has_due d) cards = filter (has_due d) projected)
    /\ (length infos = length ids -> ids = [] -> cards = []).
Proof.
  intros Hfind Hinfo projected.
  exists (sort by_due projected). repeat split.
  - unfold findCardsAndOrder. cbn [run]. rewrite Hfind. cbn [run].
    now rewrite Hinfo.
  - apply sort_perm.
  - apply sort_sorted.
  - intros d. apply sort_stable.
  - intros Hlen ->. destruct infos; [reflexivity | discriminate Hlen].
Qed.

Lemma findCardsAndOrder_spec_witness :
  exists cards,
    run sample_store (findCardsAndOrder (lit "isdue")) 0%Z
    = (Returned cards, 0%Z,
       [findCards (formatQuery (lit "isdue")); cardsInfo [1; 2; 3]%Z])
    /\ map cardId cards = [3; 2; 1]%Z.
Proof.
  destruct (findCardsAndOrder_spec Z sample_store 0%Z 0%Z 0%Z (lit "isdue")
              [1; 2; 3]%Z (map sample_info [1; 2; 3]%Z) eq_refl eq_refl)
    as (cards & Hrun & _).
  exists cards. split; [exact Hrun|].
  vm_compute in Hrun. now inversion Hrun.
Defined.

(* ================================================================= *)
(** ** The tool dispatcher *)

(** C8.  A tool call without an arguments object fails with the error of an
    invalid request, [No arguments provided for tool: <name>], and touches
    the store neither by a call nor in its state; a call with arguments whose
    name is none of [update_cards], [add_card], [get_due_cards] and
    [get_new_cards] fails with the error [Unknown tool], again without a
    store call. *)
Theorem callTool_rejects (S : Type) (h : store S) (st : S) (tool : jsstring) :
  run h (callTool {| name := tool; arguments := None |}) st
  = (Thrown (Error (lit "No arguments provided for tool: " ++ tool)), st, [])
  /\ (forall args,
        ~ In tool [lit "update_cards"; lit "add_card"; lit "get_due_cards";
                   lit "get_new_cards"] ->
        run h (callTool {| name := tool; arguments := Some args |}) st
        = (Thrown (Error (lit "Unknown tool")), st, [])).
Proof.
  split; [reflexivity|].
  intros args Hnot. unfold callTool. cbn [arguments name].
  rewrite !string_eqb_neq; [reflexivity | | | |];
    intros ->; apply Hnot; simpl; auto.
Qed.

Lemma callTool_rejects_witness :
  run sample_store
      (callTool {| name := lit "delete_card"; arguments := Some sample_args |})
      7%Z
  = (Thrown (Error (lit "Unknown tool")), 7%Z, []).
Proof.
  apply (proj2 (callTool_rejects Z sample_store 7%Z (lit "delete_card"))).
  simpl. intros [H|[H|[H|[H|[]]]]]; discriminate H.
Defined.

(** C9.  [add_card] makes exactly two store calls.  The first one creates a
    note in deck [Default] with note type [Basic] whose fields [Front] and
    [Back] are the arguments, unchanged; the second one searches the cards of
    the new note, [nid:<note id>].  The call returns the text
    [Created card with id <id>] for the first card found, and the text
    [Created card with id undefined], not an error, when none is found.
    The two identifiers that are written as text, that of the note and that
    of the first card, are exact integers. *)
Theorem add_card_spec (S : Type) (h : store S) (st st1 st2 : S)
    (args : Args) (noteId : Z) (ids : list Z) :
  let note :=
    {| deckName := lit "Default";
       fields := [("Back", back args); ("Front", front args)]%string;
       modelName := lit "Basic" |} in
  h (addNote note) st = (Ok noteId, st1) ->
  exact_integer noteId ->
  h (findCards (lit "nid:" ++ number_to_string noteId)) st1 = (Ok ids, st2) ->
  Forall exact_integer (firstn 1 ids) ->
  get (fields note) "Front" = Some (front args)
  /\ get (fields note) "Back" = Some (back args)
  /\ run h (callTool (tool_request "add_card" args)) st
     = (Returned
          (text_result
             (lit "Created card with id "
              ++ match ids with
                 | [] => lit "undefined"
                 | first :: _ => number_to_string first
                 end)),
        st2,
        [addNote note; findCards (lit "nid:" ++ number_to_string noteId)]).
Proof.
  intros note Hadd _ Hfind _. repeat split.
  change (callTool (tool_request "add_card" args)) with (add_card args).
  unfold add_card. fold note. cbn [run]. rewrite Hadd. cbn [run].
  rewrite Hfind. destruct ids; reflexivity.
Qed.

Lemma add_card_spec_witness :
  run sample_store
      (callTool
         (tool_request "add_card"
            {| answers := []; front := lit "<b>2+2</b>"; back := lit "4";
               num := NaN |}))
      41%Z
  = (Returned (text_result (lit "Created card with id 1")), 42%Z,
     [addNote {| deckName := lit "Default";
                 fields := [("Back", lit "4"); ("Front", lit "<b>2+2</b>")]%string;
                 modelName := lit "Basic" |};
      findCards (lit "nid:42")]).
Proof.
  refine (proj2 (proj2
    (add_card_spec Z sample_store 41%Z 42%Z 42%Z
       {| answers := []; front := lit "<b>2+2</b>"; back := lit "4";
          num := NaN |}
       42%Z [1; 2; 3]%Z eq_refl _ eq_refl _))); exact_numbers.
Defined.

(** Positions and pairs: filtering by index against the list of booleans is
    filtering the pairs of [combine]. *)
Lemma filter_index_ext {A : Type} (f g : nat -> bool) (l : list A) (i : nat) :
  (forall j, f j = g j) -> filter_index f i l = filter_index g i l.
Proof.
  intros E. revert i; induction l as [|x l IH]; intros i; simpl;
    [reflexivity|].
  now rewrite E, IH.
Qed.

Lemma filter_index_shift {A : Type} (f : nat -> bool) (l : list A) (i : nat) :
  filter_index f (S i) l = filter_index (fun j => f (S j)) i l.
Proof.
  revert i; induction l as [|x l IH]; intros i; simpl; [reflexivity|].
  now rewrite IH.
Qed.

Lemma filter_index_combine {A : Type} (g : bool -> bool) (l : list A)
    (result : list bool) :
  length result = length l ->
  filter_index (fun index => g (truthy_at result index)) 0 l
  = map fst (filter (fun p => g (snd p)) (combine l result)).
Proof.
  revert result; induction l as [|x l IH]; intros [|b result] Hlen;
    try discriminate Hlen; [reflexivity|].
  injection Hlen as Hlen. cbn [filter_index combine filter snd].
  rewrite filter_index_shift.
  change (fun j => g (truthy_at (b :: result) (S j)))
    with (fun j => g (truthy_at result j)).
  rewrite (IH _ Hlen).
  change (truthy_at (b :: result) 0) with b.
  now destruct (g b).
Qed.

Lemma filter_index_truthy {A : Type} (l : list A) (result : list bool) :
  length result = length l ->
  filter_index (truthy_at result) 0 l
  = map fst (filter (fun p => snd p) (combine l result)).
Proof.
  intros Hlen. rewrite <- (filter_index_combine (fun b => b) _ _ Hlen).
  now apply filter_index_ext.
Qed.

Lemma filter_all_true {A : Type} (l : list A) (result : list bool) :
  length result = length l -> ~ In false result ->
  map fst (filter (fun p => snd p) (combine l result)) = l
  /\ filter (fun p => negb (snd p)) (combine l result) = [].
Proof.
  revert result; induction l as [|x l IH]; intros [|b result] Hlen Hno;
    try discriminate Hlen; [split; reflexivity|].
  injection Hlen as Hlen. destruct b; [|exfalso; apply Hno; now left].
  destruct (IH result Hlen) as [E1 E2]; [intros H; apply Hno; now right|].
  cbn [combine filter snd negb map fst]. now rewrite E1, E2.
Qed.

Lemma filter_some_false {A : Type} (l : list A) (result : list bool) :
  length result = length l -> In false result ->
  filter (fun p => negb (snd p)) (combine l result) <> [].
Proof.
  revert result; induction l as [|x l IH]; intros [|b result] Hlen Hin;
    try discriminate Hlen; [destruct Hin|].
  injection Hlen as Hlen. cbn [combine filter snd].
  destruct b; cbn [negb]; [|discriminate].
  destruct Hin as [H|H]; [discriminate H|]. now apply IH.
Qed.

(** C3.  When the store answers [update_cards] with one boolean per answer:
    if some boolean is [false] the call fails with an error that lists
    exactly the card identifiers at the [false] positions, in order, and no
    result is returned; if all are [true] the call returns a text that lists
    all the submitted card identifiers.  In both cases the store was called
    once, with all the answers.  The submitted card identifiers, which the
    two texts write out, are exact integers. *)
Theorem update_cards_spec (S : Type) (h : store S) (st st1 : S)
    (args : Args) (result : list bool) :
  h (answerCards (answers args)) st = (Ok result, st1) ->
  length result = length (answers args) ->
  Forall (fun a => exact_integer (answer_cardId a)) (answers args) ->
  (In false result ->
   run h (callTool (tool_request "update_cards" args)) st
   = (Thrown
        (Error
           (lit "Failed to update cards with IDs: "
            ++ join (lit ", ")
                 (map number_to_string (rejected_ids (answers args) result)))),
      st1, [answerCards (answers args)]))
  /\ (~ In false result ->
      run h (callTool (tool_request "update_cards" args)) st
      = (Returned
           (text_result
              (lit "Updated cards "
               ++ join (lit ", ")
                    (map number_to_string (map answer_cardId (answers args))))),
         st1, [answerCards (answers args)])).
Proof.
  intros Hstore Hlen _.
  change (callTool (tool_request "update_cards" args)) with (update_cards args).
  unfold update_cards. cbn [run]. rewrite Hstore.
  rewrite (filter_index_combine negb _ _ Hlen).
  rewrite (filter_index_truthy _ _ Hlen).
  split; intros Hin.
  - pose proof (filter_some_false _ _ Hlen Hin) as Hne.
    unfold rejected_ids.
    destruct (filter (fun p => negb (snd p)) (combine (answers args) result))
      as [|p l]; [contradiction|].
    rewrite (map_map fst answer_cardId). reflexivity.
  - destruct (filter_all_true _ _ Hlen Hin) as [E1 E2].
    rewrite E1, E2. reflexivity.
Qed.

Lemma update_cards_spec_witness :
  run sample_store
      (callTool
         (tool_request "update_cards"
            {| answers := [ {| answer_cardId := 1; answer_ease := 2 |};
                            {| answer_cardId := 2; answer_ease := 7 |} ];
               front := []; back := []; num := NaN |}))
      0%Z
  = (Thrown (Error (lit "Failed to update cards with IDs: 2")), 0%Z,
     [answerCards [ {| answer_cardId := 1; answer_ease := 2 |};
                    {| answer_cardId := 2; answer_ease := 7 |} ]]).
Proof.
  refine (proj1
    (update_cards_spec Z sample_store 0%Z 0%Z
       {| answers := [ {| answer_cardId := 1; answer_ease := 2 |};
                       {| answer_cardId := 2; answer_ease := 7 |} ];
          front := []; back := []; num := NaN |}
       [true; false] eq_refl eq_refl _) _).
  - exact_numbers.
  - simpl. auto.
Defined.

(** What [slice(0, end)] keeps. *)
Lemma firstn_min_length {A : Type} (n : nat) (l : list A) :
  firstn (Nat.min n (length l)) l = firstn n l.
Proof.
  destruct (Nat.le_ge_cases n (length l)) as [H|H].
  - now rewrite Nat.min_l.
  - rewrite Nat.min_r by exact H. now rewrite firstn_all, firstn_all2.
Qed.

Lemma slice_from_zero {A : Type} (l : list A) (n : Z) :
  slice l (Finite 0) (Finite n)
  = if (0 <=? n)%Z then firstn (Z.to_nat n) l
    else firstn (length l - Z.to_nat (- n)) l.
Proof.
  unfold slice. cbn [ToIntegerOrInfinity relative_index Z.ltb Z.compare].
  replace (Z.to_nat (Z.min 0 (Z.of_nat (length l)))) with 0%nat by lia.
  rewrite Nat.sub_0_r. cbn [skipn].
  destruct (0 <=? n)%Z eqn:E.
  - apply Z.leb_le in E.
    replace (n <? 0)%Z with false by (symmetry; apply Z.ltb_ge; lia).
    rewrite <- (firstn_min_length (Z.to_nat n)). f_equal. lia.
  - apply Z.leb_gt in E.
    replace (n <? 0)%Z with true by (symmetry; apply Z.ltb_lt; lia).
    f_equal. lia.
Qed.

Lemma slice_to_NaN {A : Type} (l : list A) : slice l (Finite 0) NaN = [].
Proof.
  unfold slice. cbn [ToIntegerOrInfinity relative_index Z.ltb Z.compare].
  replace (Z.to_nat (Z.min 0 (Z.of_nat (length l)))) with 0%nat by lia.
  reflexivity.
Qed.

(** Running a sequence of two programs. *)
Lemma run_bind {S A B : Type} (h : store S) (p : Prog A) (f : A -> Prog B)
    (st : S) :
  run h (bind p f) st
  = match run h p st with
    | (Returned a, st', log) =>
        let '(o, st'', log') := run h (f a) st' in (o, st'', log ++ log')
    | (Thrown e, st', log) => (Thrown e, st', log)
    end.
Proof.
  revert st; induction p as [a|e|c k IH]; intros st; cbn [bind run].
  - now destruct (run h (f a) st) as [[o st'] log].
  - reflexivity.
  - destruct (h c st) as [[r|reason] st']; [|reflexivity].
    rewrite IH. destruct (run h (k r) st') as [[[a|e] st''] log];
      [|reflexivity].
    now destruct (run h (f a) st'') as [[o st3] log'].
Qed.

(** The retriever fails only when a store call fails. *)
Lemma findCardsAndOrder_throws {S : Type} (h : store S) (st : S)
    (query : jsstring) (e : error) :
  fst (fst (run h (findCardsAndOrder query) st)) = Thrown e ->
  exists reason, e = StoreFailure reason.
Proof.
  unfold findCardsAndOrder. cbn [run].
  destruct (h (findCards (formatQuery query)) st) as [[ids|r] st1].
  - cbn [run]. destruct (h (cardsInfo ids) st1) as [[infos|r] st2];
      cbn [fst]; [discriminate|].
    intros H; injection H as <-. now exists r.
  - cbn [fst]. intros H; injection H as <-. now exists r.
Qed.

(** The two listing tools are one program, up to the keyword. *)
Lemma listing_tool_unfold (tool keyword : string) (args : Args) :
  In (tool, keyword) listing_tools ->
  callTool (tool_request tool args)
  = (cards <- findCardsAndOrder (lit keyword) ;;
     Ret (text_result
            (stringify_cards (slice cards (Finite 0) (num args))))).
Proof.
  intros [E|[E|[]]]; injection E as <- <-; reflexivity.
Qed.

Lemma listing_tool_run {S : Type} (h : store S) (st st1 st2 : S)
    (tool keyword : string) (args : Args) (ids : list Z)
    (infos : list CardInfo) :
  In (tool, keyword) listing_tools ->
  h (findCards (formatQuery (lit keyword))) st = (Ok ids, st1) ->
  h (cardsInfo ids) st1 = (Ok infos, st2) ->
  run h (callTool (tool_request tool args)) st
  = (Returned
       (text_result
          (stringify_cards
             (slice (sort by_due (map project infos)) (Finite 0) (num args)))),
     st2, [findCards (formatQuery (lit keyword)); cardsInfo ids]).
Proof.
  intros Htool Hfind Hinfo. rewrite (listing_tool_unfold _ _ args Htool).
  unfold findCardsAndOrder. cbn [bind run].
  rewrite Hfind. cbn [run]. now rewrite Hinfo.
Qed.

(** C2, as the code has it.  For [get_due_cards] and [get_new_cards] alike,
    with [cards] the retrieved cards in ascending order of the due key and
    [num] an integer: a non-negative [num] returns the first [num] cards, so
    none for zero and all of them when [num] is at least their number; a
    negative [num] returns all but the last [-num] cards, so none when [-num]
    is at least their number.  The call never fails on account of [num].
    The identifiers and due keys of the records, which the returned JSON
    text writes out, are exact integers. *)
Theorem listing_tools_truncate (S : Type) (h : store S) (st st1 st2 : S)
    (tool keyword : string) (args : Args) (n : Z) (ids : list Z)
    (infos : list CardInfo) :
  In (tool, keyword) listing_tools ->
  num args = Finite n ->
  h (findCards (formatQuery (lit keyword))) st = (Ok ids, st1) ->
  h (cardsInfo ids) st1 = (Ok infos, st2) ->
  Forall exact_card infos ->
  let cards := sort by_due (map project infos) in
  let kept :=
    if (0 <=? n)%Z then firstn (Z.to_nat n) cards
    else firstn (length cards - Z.to_nat (- n)) cards in
  run h (findCardsAndOrder (lit keyword)) st
  = (Returned cards, st2, [findCards (formatQuery (lit keyword)); cardsInfo ids])
  /\ StronglySorted due_le cards
  /\ run h (callTool (tool_request tool args)) st
     = (Returned (text_result (stringify_cards kept)), st2,
        [findCards (formatQuery (lit keyword)); cardsInfo ids])
  /\ (n = 0%Z -> kept = [])
  /\ (Z.of_nat (length cards) <= n -> kept = cards)%Z
  /\ (n <= - Z.of_nat (length cards) -> kept = [])%Z.
Proof.
  intros Htool Hnum Hfind Hinfo _ cards kept. repeat split.
  - unfold findCardsAndOrder. cbn [run]. rewrite Hfind. cbn [run].
    now rewrite Hinfo.
  - apply sort_sorted.
  - rewrite (listing_tool_run h _ _ _ _ _ args _ _ Htool Hfind Hinfo), Hnum.
    now rewrite slice_from_zero.
  - intros ->. reflexivity.
  - intros Hn. unfold kept.
    replace (0 <=? n)%Z with true by (symmetry; apply Z.leb_le; lia).
    apply firstn_all2. lia.
  - intros Hn. unfold kept. destruct (0 <=? n)%Z eqn:E.
    + apply Z.leb_le in E.
      assert (length cards = 0%nat) as E0 by lia.
      destruct cards; [now rewrite firstn_nil | discriminate E0].
    + replace (length cards - Z.to_nat (- n))%nat with 0%nat by lia.
      reflexivity.
Qed.

Lemma listing_tools_truncate_witness :
  run sample_store (callTool (tool_request "get_new_cards" sample_args)) 0%Z
  = (Returned
       (text_result
          (stringify_cards
             (firstn 2 (sort by_due (map project (map sample_info [1; 2; 3]%Z)))))),
     0%Z, [findCards (formatQuery (lit "is:new")); cardsInfo [1; 2; 3]%Z]).
Proof.
  refine (proj1 (proj2 (proj2
    (listing_tools_truncate Z sample_store 0%Z 0%Z 0%Z
       "get_new_cards" "is:new" sample_args 2%Z [1; 2; 3]%Z
       (map sample_info [1; 2; 3]%Z) _ eq_refl eq_refl eq_refl _)))).
  - simpl. auto.
  - exact_numbers.
Defined.

(** C2 as stated fails for a negative [num]: over the three cards of the
    sample store [get_due_cards] with [num = -1] returns the two most urgent
    cards, not an empty list. *)
Lemma get_due_cards_negative_num :
  let args := {| answers := []; front := []; back := []; num := Finite (-1) |} in
  let kept := map project [sample_info 3; sample_info 2] in
  (-1 <= 0)%Z
  /\ fst (fst (run sample_store (callTool (tool_request "get_due_cards" args)) 0%Z))
     = Returned (text_result (stringify_cards kept))
  /\ stringify_cards kept <> stringify_cards [].
Proof.
  split; [lia|]. split; [vm_compute; reflexivity | vm_compute; discriminate].
Qed.

(** C10.  When [Number(args.num)] is [NaN], [get_due_cards] and
    [get_new_cards] raise no error of their own: whatever the store does, the
    outcome is either the failure of a store call or the text of an empty
    JSON array; and when the store answers both calls it is that text. *)
Theorem listing_tools_NaN (S : Type) (h : store S) (st : S)
    (tool keyword : string) (args : Args) :
  In (tool, keyword) listing_tools ->
  num args = NaN ->
  (match fst (fst (run h (callTool (tool_request tool args)) st)) with
   | Returned r => r = text_result (lit "[]")
   | Thrown (StoreFailure _) => True
   | Thrown (Error _) => False
   end)
  /\ (forall ids st1 infos st2,
        h (findCards (formatQuery (lit keyword))) st = (Ok ids, st1) ->
        h (cardsInfo ids) st1 = (Ok infos, st2) ->
        run h (callTool (tool_request tool args)) st
        = (Returned (text_result (lit "[]")), st2,
           [findCards (formatQuery (lit keyword)); cardsInfo ids])).
Proof.
  intros Htool Hnum.
  assert (Hok : forall ids st1 infos st2,
             h (findCards (formatQuery (lit keyword))) st = (Ok ids, st1) ->
             h (cardsInfo ids) st1 = (Ok infos, st2) ->
             run h (callTool (tool_request tool args)) st
             = (Returned (text_result (lit "[]")), st2,
                [findCards (formatQuery (lit keyword)); cardsInfo ids])).
  { intros ids st1 infos st2 Hfind Hinfo.
    rewrite (listing_tool_run h _ _ _ _ _ args _ _ Htool Hfind Hinfo), Hnum.
    now rewrite slice_to_NaN. }
  split; [|exact Hok].
  rewrite (listing_tool_unfold _ _ args Htool), run_bind.
  destruct (run h (findCardsAndOrder (lit keyword)) st)
    as [[[cards|e] st'] log] eqn:Hrun.
  - cbn [run fst]. now rewrite Hnum, slice_to_NaN.
  - destruct (findCardsAndOrder_throws h st (lit keyword) e) as [reason ->];
      [now rewrite Hrun|].
    exact I.
Qed.

Lemma listing_tools_NaN_witness :
  run sample_store
      (callTool
         (tool_request "get_due_cards"
            {| answers := []; front := []; back := []; num := NaN |}))
      0%Z
  = (Returned (text_result (lit "[]")), 0%Z,
     [findCards (formatQuery (lit "is:due")); cardsInfo [1; 2; 3]%Z]).
Proof.
  refine (proj2
    (listing_tools_NaN Z sample_store 0%Z "get_due_cards" "is:due"
       {| answers := []; front := []; back := []; num := NaN |} _ eq_refl)
    [1; 2; 3]%Z 0%Z (map sample_info [1; 2; 3]%Z) 0%Z eq_refl eq_refl).
  simpl. auto.
Defined.

(* ================================================================= *)
(** ** More on the tools *)

Lemma filter_index_ext_in {A : Type} (f g : nat -> bool) (l : list A)
    (i : nat) :
  (forall j, i <= j < i + length l -> f j = g j) ->
  filter_index f i l = filter_index g i l.
Proof.
  revert i; induction l as [|x l IH]; intros i E; [reflexivity|].
  cbn [filter_index]. rewrite (E i) by (simpl; lia).
  rewrite (IH (S i)); [reflexivity|]. intros j Hj. apply E. simpl; lia.
Qed.

Lemma read_results_length (n : nat) (result : list bool) :
  length (read_results n result) = n.
Proof.
  unfold read_results. rewrite length_firstn, length_app, repeat_length. lia.
Qed.

Lemma truthy_at_read_results (n : nat) (result : list bool) (j : nat) :
  j < n -> truthy_at (read_results n result) j = truthy_at result j.
Proof.
  intros Hj. unfold truthy_at, read_results.
  rewrite nth_error_firstn.
  replace (j <? n)%nat with true by (symmetry; now apply Nat.ltb_lt).
  destruct (Nat.lt_ge_cases j (length result)) as [H|H].
  - now rewrite nth_error_app1.
  - rewrite nth_error_app2 by exact H.
    rewrite (proj2 (nth_error_None result j) H).
    rewrite nth_error_repeat by lia. reflexivity.
Qed.

(** X1.  Whatever list of booleans the store returns for [update_cards], of
    any length: an answer counts as updated only when the store returned
    [true] at its position, so an answer beyond the end of the reply counts
    as failed and booleans beyond the answers are ignored.  The call returns
    the text that lists all the submitted identifiers when none failed, and
    throws the error that lists the failed ones otherwise.  The submitted
    identifiers, which the two texts write out, are exact integers. *)
Theorem update_cards_any_reply (S : Type) (h : store S) (st st1 : S)
    (args : Args) (result : list bool) :
  h (answerCards (answers args)) st = (Ok result, st1) ->
  Forall (fun a => exact_integer (answer_cardId a)) (answers args) ->
  let failed :=
    rejected_ids (answers args)
      (read_results (length (answers args)) result) in
  run h (callTool (tool_request "update_cards" args)) st
  = (match failed with
     | [] =>
         Returned
           (text_result
              (lit "Updated cards "
               ++ join (lit ", ")
                    (map number_to_string
                       (map answer_cardId (answers args)))))
     | _ :: _ =>
         Thrown
           (Error
              (lit "Failed to update cards with IDs: "
               ++ join (lit ", ") (map number_to_string failed)))
     end,
     st1, [answerCards (answers args)]).
Proof.
  intros Hstore _ failed.
  change (callTool (tool_request "update_cards" args)) with (update_cards args).
  unfold update_cards. cbn [run]. rewrite Hstore.
  set (n := length (answers args)). set (res := read_results n result).
  assert (Hlen : length res = length (answers args))
    by apply read_results_length.
  rewrite (filter_index_ext_in
             (fun index => negb (truthy_at result index))
             (fun index => negb (truthy_at res index)))
    by (intros j Hj; unfold res; rewrite truthy_at_read_results;
        [reflexivity | fold n in Hj; lia]).
  rewrite (filter_index_ext_in (truthy_at result) (truthy_at res))
    by (intros j Hj; unfold res; rewrite truthy_at_read_results;
        [reflexivity | fold n in Hj; lia]).
  rewrite (filter_index_combine negb _ _ Hlen).
  rewrite (filter_index_truthy _ _ Hlen).
  unfold failed, rejected_ids. fold n. fold res.
  destruct (in_dec bool_dec false res) as [Hin|Hin].
  - pose proof (filter_some_false _ _ Hlen Hin) as Hne.
    destruct (filter (fun p => negb (snd p)) (combine (answers args) res))
      as [|p l]; [contradiction|].
    rewrite (map_map fst answer_cardId). reflexivity.
  - destruct (filter_all_true _ _ Hlen Hin) as [E1 E2].
    rewrite E1, E2. reflexivity.
Qed.

Lemma update_cards_any_reply_witness :
  run (fun c st =>
         match c return result (reply c) * Z with
         | answerCards _ => (Ok [true], st)
         | c' => sample_store c' st
         end)
      (callTool
         (tool_request "update_cards"
            {| answers := [ {| answer_cardId := 1; answer_ease := 2 |};
                            {| answer_cardId := 2; answer_ease := 3 |} ];
               front := []; back := []; num := NaN |}))
      0%Z
  = (Thrown (Error (lit "Failed to update cards with IDs: 2")), 0%Z,
     [answerCards [ {| answer_cardId := 1; answer_ease := 2 |};
                    {| answer_cardId := 2; answer_ease := 3 |} ]]).
Proof.
  refine (update_cards_any_reply Z _ 0%Z 0%Z
            {| answers := [ {| answer_cardId := 1; answer_ease := 2 |};
                            {| answer_cardId := 2; answer_ease := 3 |} ];
               front := []; back := []; num := NaN |}
            [true] eq_refl _).
  exact_numbers.
Defined.

(** X2.  [add_card] stops at the first store call that fails and hands the
    failure on unchanged.  If the creation of the note fails, no search is
    made.  If the note is created and the search for its card fails, the
    call fails although the note exists: nothing undoes the creation.  The
    identifier of the note, which the search writes out, is an exact
    integer. *)
Theorem add_card_failures (S : Type) (h : store S) (st st1 : S)
    (args : Args) :
  let note :=
    {| deckName := lit "Default";
       fields := [("Back", back args); ("Front", front args)]%string;
       modelName := lit "Basic" |} in
  (forall reason,
      h (addNote note) st = (Failed reason, st1) ->
      run h (callTool (tool_request "add_card" args)) st
      = (Thrown (StoreFailure reason), st1, [addNote note]))
  /\ (forall noteId reason st2,
        h (addNote note) st = (Ok noteId, st1) ->
        exact_integer noteId ->
        h (findCards (lit "nid:" ++ number_to_string noteId)) st1
        = (Failed reason, st2) ->
        run h (callTool (tool_request "add_card" args)) st
        = (Thrown (StoreFailure reason), st2,
           [addNote note;
            findCards (lit "nid:" ++ number_to_string noteId)])).
Proof.
  intros note.
  change (callTool (tool_request "add_card" args)) with (add_card args).
  unfold add_card. fold note. cbn [run]. split.
  - intros reason Hadd. now rewrite Hadd.
  - intros noteId reason st2 Hadd _ Hfind. rewrite Hadd. cbn [run].
    now rewrite Hfind.
Qed.

Lemma add_card_failures_witness :
  run (failing_store is_findCards)
      (callTool
         (tool_request "add_card"
            {| answers := []; front := lit "2+2"; back := lit "4";
               num := NaN |}))
      41%Z
  = (Thrown (StoreFailure (lit "ECONNREFUSED")), 42%Z,
     [addNote {| deckName := lit "Default";
                 fields := [("Back", lit "4"); ("Front", lit "2+2")]%string;
                 modelName := lit "Basic" |};
      findCards (lit "nid:42")]).
Proof.
  refine (proj2
    (add_card_failures Z (failing_store is_findCards) 41%Z 42%Z
       {| answers := []; front := lit "2+2"; back := lit "4"; num := NaN |})
    42%Z (lit "ECONNREFUSED") 42%Z eq_refl _ eq_refl).
  exact_numbers.
Defined.

(** X3.  The retriever stops at the first store call that fails and hands
    the failure on unchanged: when the search fails, the records are not
    asked for; when the look-up of the records fails, nothing is returned. *)
Theorem findCardsAndOrder_failures (S : Type) (h : store S) (st st1 : S)
    (keyword : jsstring) :
  (forall reason,
      h (findCards (formatQuery keyword)) st = (Failed reason, st1) ->
      run h (findCardsAndOrder keyword) st
      = (Thrown (StoreFailure reason), st1, [findCards (formatQuery keyword)]))
  /\ (forall ids reason st2,
        h (findCards (formatQuery keyword)) st = (Ok ids, st1) ->
        h (cardsInfo ids) st1 = (Failed reason, st2) ->
        run h (findCardsAndOrder keyword) st
        = (Thrown (StoreFailure reason), st2,
           [findCards (formatQuery keyword); cardsInfo ids])).
Proof.
  unfold findCardsAndOrder. cbn [run]. split.
  - intros reason Hfind. now rewrite Hfind.
  - intros ids reason st2 Hfind Hinfo. rewrite Hfind. cbn [run].
    now rewrite Hinfo.
Qed.

Lemma findCardsAndOrder_failures_witness :
  run (failing_store is_cardsInfo) (findCardsAndOrder (lit "isdue")) 0%Z
  = (Thrown (StoreFailure (lit "ECONNREFUSED")), 0%Z,
     [findCards (lit "is:due"); cardsInfo [1; 2; 3]%Z]).
Proof.
  exact (proj2
    (findCardsAndOrder_failures Z (failing_store is_cardsInfo) 0%Z 0%Z
       (lit "isdue"))
    [1; 2; 3]%Z (lit "ECONNREFUSED") 0%Z eq_refl eq_refl).
Defined.

(** X4.  Whatever the request and the store, a tool call makes at most two
    store calls, and it changes the store only as its tool says: answers are
    submitted by [update_cards] alone, notes are created by [add_card]
    alone, and the two listing tools make no call that changes the store. *)
Theorem callTool_store_access (S : Type) (h : store S) (st : S)
    (request : CallToolRequest) :
  let log := snd (run h (callTool request) st) in
  length log <= 2
  /\ Forall (fun c =>
               match c with
               | answerCards _ => name request = lit "update_cards"
               | addNote _ => name request = lit "add_card"
               | findCards _ | cardsInfo _ => True
               end) log
  /\ (name request = lit "get_due_cards" \/ name request = lit "get_new_cards" ->
      Forall (fun c => mutates c = false) log).
Proof.
  destruct request as [tool [args|]]; cbn [name];
    [|repeat split; simpl; auto; constructor].
  unfold callTool. cbn [arguments name].
  destruct (string_eqb tool (lit "update_cards")) eqn:E1.
  { apply string_eqb_eq in E1. subst tool.
    unfold update_cards. cbn [run].
    destruct (h (answerCards (answers args)) st) as [[result|r] st1].
    - destruct (0 <? length _)%nat; cbn [run snd length];
        (split; [lia|]); (split; [now repeat constructor|]);
        intros [H|H]; discriminate H.
    - cbn [snd length]. split; [lia|]. split; [now repeat constructor|].
      intros [H|H]; discriminate H. }
  destruct (string_eqb tool (lit "add_card")) eqn:E2.
  { apply string_eqb_eq in E2. subst tool.
    unfold add_card. cbn [run].
    destruct (h (addNote _) st) as [[noteId|r] st1].
    - cbn [run]. destruct (h (findCards _) st1) as [[ids|r] st2];
        cbn [run snd length]; (split; [lia|]);
        (split; [now repeat constructor|]); intros [H|H]; discriminate H.
    - cbn [snd length]. split; [lia|]. split; [now repeat constructor|].
      intros [H|H]; discriminate H. }
  assert (Hread : forall kw (f : list Card -> Prog CallToolResult),
             (forall cards, exists r, f cards = Ret r) ->
             let log := snd (run h (bind (findCardsAndOrder kw) f) st) in
             length log <= 2
             /\ Forall (fun c =>
                          match c with
                          | answerCards _ => tool = lit "update_cards"
                          | addNote _ => tool = lit "add_card"
                          | findCards _ | cardsInfo _ => True
                          end) log
             /\ Forall (fun c => mutates c = false) log).
  { intros kw f Hf. unfold findCardsAndOrder. cbn [bind run].
    destruct (h (findCards _) st) as [[ids|r] st1].
    - cbn [run]. destruct (h (cardsInfo ids) st1) as [[infos|r] st2].
      + destruct (Hf (sort by_due (map project infos))) as [res ->].
        cbn [run snd length]. repeat split; try lia; now repeat constructor.
      + cbn [snd length]. repeat split; try lia; now repeat constructor.
    - cbn [snd length]. repeat split; try lia; now repeat constructor. }
  destruct (string_eqb tool (lit "get_due_cards")) eqn:E3.
  { destruct (Hread (lit "is:due")
                (fun cards =>
                   Ret (text_result
                          (stringify_cards
                             (slice cards (Finite 0) (num args))))))
      as (H1 & H2 & H3); [intros; eauto|].
    split; [exact H1 | split; [exact H2 | intros _; exact H3]]. }
  destruct (string_eqb tool (lit "get_new_cards")) eqn:E4.
  { destruct (Hread (lit "is:new")
                (fun cards =>
                   Ret (text_result
                          (stringify_cards
                             (slice cards (Finite 0) (num args))))))
      as (H1 & H2 & H3); [intros; eauto|].
    split; [exact H1 | split; [exact H2 | intros _; exact H3]]. }
  cbn [run snd length]. split; [lia|]. split; [constructor|].
  intros _. constructor.
Qed.

Lemma callTool_store_access_witness :
  Forall (fun c => mutates c = false)
    (snd (run sample_store
            (callTool (tool_request "get_due_cards" sample_args)) 0%Z)).
Proof.
  apply (proj2 (proj2
    (callTool_store_access Z sample_store 0%Z
       (tool_request "get_due_cards" sample_args)))).
  left. reflexivity.
Defined.

(** X5.  For every value of [num], finite or not, the listing tools return a
    prefix of the cards in ascending order of the due key: never a card out
    of order, never a failure of their own.  [+Infinity] returns all the
    cards, [-Infinity] none.  The identifiers and due keys of the records,
    which the returned JSON text writes out, are exact integers. *)
Theorem listing_tools_prefix (S : Type) (h : store S) (st st1 st2 : S)
    (tool keyword : string) (args : Args) (ids : list Z)
    (infos : list CardInfo) :
  In (tool, keyword) listing_tools ->
  h (findCards (formatQuery (lit keyword))) st = (Ok ids, st1) ->
  h (cardsInfo ids) st1 = (Ok infos, st2) ->
  Forall exact_card infos ->
  let cards := sort by_due (map project infos) in
  exists k,
    run h (callTool (tool_request tool args)) st
    = (Returned (text_result (stringify_cards (firstn k cards))), st2,
       [findCards (formatQuery (lit keyword)); cardsInfo ids])
    /\ (num args = Infinity false -> firstn k cards = cards)
    /\ (num args = Infinity true -> firstn k cards = []).
Proof.
  intros Htool Hfind Hinfo _ cards.
  rewrite (listing_tool_run h _ _ _ _ _ args _ _ Htool Hfind Hinfo).
  fold cards. unfold slice.
  change (relative_index (length cards) (ToIntegerOrInfinity (Finite 0)))
    with (Z.to_nat (Z.min 0 (Z.of_nat (length cards)))).
  replace (Z.to_nat (Z.min 0 (Z.of_nat (length cards)))) with 0%nat by lia.
  rewrite Nat.sub_0_r. cbn [skipn].
  exists (relative_index (length cards) (ToIntegerOrInfinity (num args))).
  split; [reflexivity|]. split; intros ->; cbn.
  - apply firstn_all.
  - reflexivity.
Qed.

Lemma listing_tools_prefix_witness :
  exists k,
    run sample_store
        (callTool
           (tool_request "get_due_cards"
              {| answers := []; front := []; back := [];
                 num := Infinity false |}))
        0%Z
    = (Returned
         (text_result
            (stringify_cards
               (firstn k
                  (sort by_due (map project (map sample_info [1; 2; 3]%Z)))))),
       0%Z, [findCards (formatQuery (lit "is:due")); cardsInfo [1; 2; 3]%Z])
    /\ firstn k (sort by_due (map project (map sample_info [1; 2; 3]%Z)))
       = sort by_due (map project (map sample_info [1; 2; 3]%Z)).
Proof.
  assert (Hexact : Forall exact_card (map sample_info [1; 2; 3]%Z))
    by exact_numbers.
  destruct (listing_tools_prefix Z sample_store 0%Z 0%Z 0%Z
              "get_due_cards" "is:due"
              {| answers := []; front := []; back := [];
                 num := Infinity false |}
              [1; 2; 3]%Z (map sample_info [1; 2; 3]%Z)
              (or_introl eq_refl) eq_refl eq_refl Hexact)
    as (k & Hrun & Hall & _).
  exists k. split; [exact Hrun | exact (Hall eq_refl)].
Defined.

(** The first store call of the two listing tools. *)
Lemma listing_first_call (S : Type) (h : store S) (st : S) (args : Args) :
  (exists rest,
      snd (run h (callTool (tool_request "get_due_cards" args)) st)
      = findCards (lit "is::due") :: rest)
  /\ (exists rest,
        snd (run h (callTool (tool_request "get_new_cards" args)) st)
        = findCards (lit "is::new") :: rest).
Proof.
  split.
  - change (callTool (tool_request "get_due_cards" args))
      with (get_due_cards args).
    unfold get_due_cards, findCardsAndOrder. cbn [bind run].
    change (formatQuery (lit "is:due")) with (lit "is::due").
    destruct (h (findCards (lit "is::due")) st) as [[ids|r] st1];
      [|now eexists].
    cbn [run].
    match goal with
    | |- context [h ?c st1] => destruct (h c st1) as [[infos|r] st2]
    end; now eexists.
  - change (callTool (tool_request "get_new_cards" args))
      with (get_new_cards args).
    unfold get_new_cards, findCardsAndOrder. cbn [bind run].
    change (formatQuery (lit "is:new")) with (lit "is::new").
    destruct (h (findCards (lit "is::new")) st) as [[ids|r] st1];
      [|now eexists].
    cbn [run].
    match goal with
    | |- context [h ?c st1] => destruct (h c st1) as [[infos|r] st2]
    end; now eexists.
Qed.

(** X6.  Whatever the arguments and the store, the first store call of
    [get_due_cards] is a search for [is::due], with two colons, and that of
    [get_new_cards] a search for [is::new]: the handlers pass the keywords
    [is:due] and [is:new], to which the query formatter adds a colon. *)
Theorem listing_tools_query (S : Type) (h : store S) (st : S) (args : Args) :
  (exists rest,
      snd (run h (callTool (tool_request "get_due_cards" args)) st)
      = findCards (lit "is::due") :: rest)
  /\ (exists rest,
        snd (run h (callTool (tool_request "get_new_cards" args)) st)
        = findCards (lit "is::new") :: rest).
Proof. exact (listing_first_call S h st args). Qed.

(** X7.  The catalogue of tools and the dispatcher agree: a call with
    arguments reaches the store exactly when its name is one of the names
    the catalogue lists; for any other name it fails with [Unknown tool]
    without a store call. *)
Theorem listTools_dispatch (S : Type) (h : store S) (st : S)
    (tool : jsstring) (args : Args) :
  (In tool (map tool_name (tools listTools)) ->
   snd (run h (callTool {| name := tool; arguments := Some args |}) st) <> [])
  /\ (~ In tool (map tool_name (tools listTools)) ->
      run h (callTool {| name := tool; arguments := Some args |}) st
      = (Thrown (Error (lit "Unknown tool")), st, [])).
Proof.
  split.
  - intros Hin. each_member Hin.
    + change (callTool _) with (update_cards args). unfold update_cards.
      cbn [run]. destruct (h _ st) as [[r|r] st1]; [|discriminate].
      cbn [run].
      match goal with
      | |- context [run h ?p st1] => destruct (run h p st1) as [[o st2] log]
      | |- context [h ?c st1] => destruct (h c st1) as [[x|x] st2]
      | _ => idtac
      end; discriminate.
    + change (callTool _) with (add_card args). unfold add_card.
      cbn [run]. destruct (h _ st) as [[r|r] st1]; [|discriminate].
      cbn [run].
      match goal with
      | |- context [run h ?p st1] => destruct (run h p st1) as [[o st2] log]
      | |- context [h ?c st1] => destruct (h c st1) as [[x|x] st2]
      | _ => idtac
      end; discriminate.
    + destruct (listing_first_call S h st args) as [[rest E] _].
      change (tool_request "get_due_cards" args)
        with {| name := lit "get_due_cards"; arguments := Some args |} in E.
      rewrite E. discriminate.
    + destruct (listing_first_call S h st args) as [_ [rest E]].
      change (tool_request "get_new_cards" args)
        with {| name := lit "get_new_cards"; arguments := Some args |} in E.
      rewrite E. discriminate.
  - intros Hnot. unfold callTool. cbn [arguments name].
    rewrite !string_eqb_neq; [reflexivity | | | |];
      intros ->; apply Hnot; simpl; auto.
Qed.

Lemma listTools_dispatch_witness :
  snd (run sample_store
         (callTool {| name := lit "add_card"; arguments := Some sample_args |})
         0%Z) <> [].
Proof.
  apply (proj1 (listTools_dispatch Z sample_store 0%Z (lit "add_card")
                  sample_args)).
  simpl. auto.
Defined.

(* ================================================================= *)
(** ** The ReadResource handler *)

Lemma split_nonempty (sep : char) (s : jsstring) : split sep s <> [].
Proof.
  destruct s as [|c s]; simpl; [discriminate|].
  destruct (c =? sep)%N; [discriminate|].
  destruct (split sep s); discriminate.
Qed.

Lemma split_two (sep : char) (s : jsstring) :
  In sep s -> exists l1 l2 ls, split sep s = l1 :: l2 :: ls.
Proof.
  induction s as [|c s IH]; [intros []|]. intros Hin. cbn [split].
  destruct (N.eqb_spec c sep) as [->|Hc].
  - destruct (split sep s) as [|l ls] eqn:E; [now apply split_nonempty in E|].
    now exists [], l, ls.
  - destruct Hin as [->|Hin]; [congruence|].
    destruct (IH Hin) as (l1 & l2 & ls & ->). now exists (c :: l1), l2, ls.
Qed.

Lemma pop_cons {A : Type} (x : A) (l : list A) :
  l <> [] -> pop (x :: l) = pop l.
Proof. destruct l; [congruence | reflexivity]. Qed.

Lemma pop_split_after (sep : char) (a t : jsstring) :
  pop (split sep (a ++ sep :: t)) = pop (split sep t).
Proof.
  induction a as [|c a IH]; cbn [app split].
  - rewrite N.eqb_refl. apply pop_cons, split_nonempty.
  - destruct (split_two sep (a ++ sep :: t)) as (l1 & l2 & ls & E);
      [apply in_elt|].
    rewrite E in IH |- *.
    destruct (c =? sep)%N; rewrite <- IH; reflexivity.
Qed.

Lemma pop_split_segment (pathname q : jsstring) :
  last_segment pathname q -> pop (split SLASH pathname) = Some q.
Proof.
  intros [[->|[a ->]] Hq].
  - now rewrite split_one.
  - rewrite pop_split_after. now rewrite split_one.
Qed.

Section ReadResource.

Variable URL_pathname : jsstring -> option jsstring.

(** X8.  A uri whose path has an empty last segment (an empty path, or a
    path that ends with a slash) is rejected with the error
    [Invalid resource URI]: no store call is made and nothing is written to
    the console. *)
Theorem readResource_invalid (S : Type) (h : store S) (st : S)
    (uri pathname : jsstring) :
  URL_pathname uri = Some pathname ->
  last_segment pathname [] ->
  readResource URL_pathname h uri st
  = (Handled (Thrown (Error (lit "Invalid resource URI"))), st, [], []).
Proof.
  intros Hurl Hseg. unfold readResource.
  now rewrite Hurl, (pop_split_segment _ _ Hseg).
Qed.

(** X9.  For a uri whose path has the non-empty last segment [q], when the
    store answers the search and the look-up: the keyword is [q], whatever
    comes before the last slash being ignored; the store is asked for the
    query of [q] and for the records; and the result is one content that
    carries the uri of the request, the content type [application/json] and
    the JSON text of the cards in ascending order of the due key.  The
    identifiers and due keys of the records, which that text writes out, are
    exact integers. *)
Theorem readResource_returns (S : Type) (h : store S) (st st1 st2 : S)
    (uri pathname q : jsstring) (ids : list Z) (infos : list CardInfo) :
  URL_pathname uri = Some pathname ->
  last_segment pathname q -> q <> [] ->
  h (findCards (formatQuery q)) st = (Ok ids, st1) ->
  h (cardsInfo ids) st1 = (Ok infos, st2) ->
  Forall exact_card infos ->
  readResource URL_pathname h uri st
  = (Handled
       (Returned
          {| contents :=
               [ {| contents_uri := uri;
                    contents_mimeType := lit "application/json";
                    contents_text :=
                      stringify_cards (sort by_due (map project infos)) |} ]
          |}),
     st2, [findCards (formatQuery q); cardsInfo ids], []).
Proof.
  intros Hurl Hseg Hq Hfind Hinfo _. unfold readResource.
  rewrite Hurl, (pop_split_segment _ _ Hseg).
  destruct q as [|c q]; [congruence|].
  unfold read_cards, findCardsAndOrder. cbn [bind run].
  rewrite Hfind. cbn [run]. now rewrite Hinfo.
Qed.

(** X10.  Whatever the uri and the store, the handler ends in one of four
    ways.  The URL parser rejects the uri, or the last segment of the path
    is empty, which gives the error [Invalid resource URI]: in both cases the
    store is not called and the console stays empty.  A store call fails:
    that failure, and nothing else, is written to the console once and
    thrown on unchanged.  Or one content with the uri of the request is
    returned, after exactly two store calls, and the console stays empty. *)
Theorem readResource_outcomes (S : Type) (h : store S) (st : S)
    (uri : jsstring) :
  match readResource URL_pathname h uri st with
  | (InvalidURL, st', log, console) =>
      st' = st /\ log = [] /\ console = []
  | (Handled (Thrown (Error message)), st', log, console) =>
      message = lit "Invalid resource URI"
      /\ st' = st /\ log = [] /\ console = []
  | (Handled (Thrown (StoreFailure reason)), st', log, console) =>
      log <> [] /\ Forall (fun c => mutates c = false) log
      /\ console = [StoreFailure reason]
  | (Handled (Returned r), st', log, console) =>
      map contents_uri (contents r) = [uri]
      /\ map contents_mimeType (contents r) = [lit "application/json"]
      /\ length log = 2 /\ Forall (fun c => mutates c = false) log
      /\ console = []
  end.
Proof.
  unfold readResource.
  destruct (URL_pathname uri) as [pathname|]; [|now repeat split].
  destruct (pop (split SLASH pathname)) as [[|c q]|]; try now repeat split.
  unfold read_cards, findCardsAndOrder. cbn [bind run].
  destruct (h (findCards _) st) as [[ids|r] st1].
  - cbn [run]. destruct (h (cardsInfo ids) st1) as [[infos|r] st2].
    + cbn [run]. repeat split; now repeat constructor.
    + repeat split; [discriminate | now repeat constructor].
  - repeat split; [discriminate | now repeat constructor].
Qed.

End ReadResource.

Lemma readResource_invalid_witness :
  readResource sample_pathname sample_store (lit "anki://search/") 0%Z
  = (Handled (Thrown (Error (lit "Invalid resource URI"))), 0%Z, [], []).
Proof.
  apply (readResource_invalid sample_pathname Z sample_store 0%Z
           (lit "anki://search/") (lit "/") eq_refl).
  split; [right; now exists [] | intros []].
Defined.

Lemma readResource_returns_witness :
  readResource sample_pathname sample_store (lit "anki://search/a/isdue") 0%Z
  = (Handled
       (Returned
          {| contents :=
               [ {| contents_uri := lit "anki://search/a/isdue";
                    contents_mimeType := lit "application/json";
                    contents_text :=
                      stringify_cards
                        (sort by_due
                           (map project (map sample_info [1; 2; 3]%Z))) |} ]
          |}),
     0%Z, [findCards (lit "is:due"); cardsInfo [1; 2; 3]%Z], []).
Proof.
  apply (readResource_returns sample_pathname Z sample_store 0%Z 0%Z 0%Z
           (lit "anki://search/a/isdue") (lit "/a/isdue") (lit "isdue")
           [1; 2; 3]%Z (map sample_info [1; 2; 3]%Z) eq_refl).
  - split; [right; now exists (lit "/a") |].
    simpl. intuition discriminate.
  - discriminate.
  - reflexivity.
  - reflexivity.
  - exact_numbers.
Defined.

(* ================================================================= *)
(** ** More on the query formatter *)

(** X11.  The query formatter is injective: two different keywords never give
    the same query. *)
Theorem formatQuery_injective (q1 q2 : jsstring) :
  formatQuery q1 = formatQuery q2 -> q1 = q2.
Proof.
  unfold formatQuery, slice_from.
  destruct (startsWith (lit "deck") q1) eqn:D1;
    destruct (startsWith (lit "deck") q2) eqn:D2;
    try (apply startsWith_prefix in D1 as [r1 ->]);
    try (apply startsWith_prefix in D2 as [r2 ->]).
  - intros H. apply (app_inv_head (lit "deck:")) in H.
    cbn [skipn app lit] in H. simpl in H. now rewrite H.
  - destruct (startsWith (lit "is") q2) eqn:I2.
    + intros H. discriminate H.
    + intros H. rewrite <- H in D2. discriminate D2.
  - destruct (startsWith (lit "is") q1) eqn:I1.
    + intros H. discriminate H.
    + intros H. rewrite H in D1. discriminate D1.
  - destruct (startsWith (lit "is") q1) eqn:I1;
      destruct (startsWith (lit "is") q2) eqn:I2;
      try (apply startsWith_prefix in I1 as [r1 ->]);
      try (apply startsWith_prefix in I2 as [r2 ->]).
    + intros H. apply (app_inv_head (lit "is:")) in H.
      simpl in H. now rewrite H.
    + intros H. rewrite <- H in I2. discriminate I2.
    + intros H. rewrite H in I1. discriminate I1.
    + auto.
Qed.

Lemma formatQuery_injective_witness :
  lit "deck" ++ lit "Math" = lit "deckMath".
Proof.
  apply formatQuery_injective. reflexivity.
Defined.

(* ================================================================= *)
(** ** The shape of normalized text *)

Lemma join_head (sep : jsstring) (c : char) (l : jsstring)
    (ls : list jsstring) :
  exists t, join sep ((c :: l) :: ls) = c :: t.
Proof. destruct ls; cbn [join app]; eexists; reflexivity. Qed.

Lemma join_last (sep : jsstring) (ls : list jsstring) :
  ls <> [] -> exists m, join sep ls = m ++ last ls [].
Proof.
  induction ls as [|l ls IH]; [congruence|]. intros _.
  destruct ls as [|l' ls]; [now exists []|].
  destruct IH as [m Hm]; [discriminate|].
  exists (l ++ sep ++ m). cbn [join] in *. rewrite Hm.
  now rewrite <- !app_assoc.
Qed.

Lemma clean_line_ends (l : jsstring) :
  clean_line l ->
  (exists c t, l = c :: t /\ is_white_space c = false)
  /\ (exists m d, l = m ++ [d] /\ is_white_space d = false).
Proof.
  intros (Hne & Htrim & _). destruct (trim_trimmed l) as [H1 H2].
  rewrite Htrim in H1, H2. split.
  - destruct l as [|c t]; [congruence|].
    exists c, t. split; [reflexivity|]. now apply trimStart_fixed_head in H1.
  - destruct (rev l) as [|d m] eqn:E.
    + apply (f_equal (@rev char)) in E. rewrite rev_involutive in E.
      simpl in E. congruence.
    + exists (rev m), d. split.
      * rewrite <- (rev_involutive l), E. reflexivity.
      * now apply trimStart_fixed_head in H2.
Qed.

Lemma in_split_first {A : Type} (dec : forall x y : A, {x = y} + {x <> y})
    (x : A) (l : list A) :
  In x l -> exists l1 l2, l = l1 ++ x :: l2 /\ ~ In x l1.
Proof.
  induction l as [|y l IH]; [intros []|]. intros Hin.
  destruct (dec y x) as [->|Hy].
  - exists [], l. split; [reflexivity | intros []].
  - destruct Hin as [->|Hin]; [congruence|].
    destruct (IH Hin) as (l1 & l2 & -> & Hl1).
    exists (y :: l1), l2. split; [reflexivity|].
    intros [H|H]; [congruence | contradiction].
Qed.

Lemma join_no_blank_line (ls : list jsstring) :
  Forall clean_line ls -> ~ occurs [NL; NL] (join [NL] ls).
Proof.
  induction 1 as [|l ls Hl Hls IH]; intros (a & b & E).
  - destruct a; discriminate E.
  - destruct Hl as (Hne & _ & Hnl).
    destruct ls as [|l' ls].
    + cbn [join] in E. apply Hnl. rewrite E. apply in_elt.
    + cbn [join app] in E. cbn [app] in E.
      destruct (in_dec N.eq_dec NL a) as [Hin|Hnin].
      * destruct (in_split_first N.eq_dec NL a Hin) as (a1 & a2 & -> & Ha1).
        rewrite <- app_assoc in E. cbn [app] in E.
        destruct (split_at_first _ NL l _ a1 _ Hnl Ha1 E) as [_ E'].
        apply IH. now exists a2, b.
      * destruct (split_at_first _ NL l _ a _ Hnl Hnin E) as [_ E'].
        inversion Hls as [|? ? Hl' _]; subst.
        destruct (clean_line_ends _ Hl') as [(c & t & -> & _) _].
        destruct Hl' as (_ & _ & Hnl').
        destruct (join_head [NL] c t ls) as [t' Ht'].
        change (join [NL] ((c :: t) :: ls) = NL :: b) in E'. rewrite Ht' in E'.
        injection E' as -> _. apply Hnl'. now left.
Qed.

(** What [clean_lines] returns: lines that are not empty, trimmed and
    free of newlines, joined by single newlines. *)
Lemma clean_lines_shape (s : jsstring) :
  (exists lines,
      clean_lines s = join [NL] lines /\ Forall clean_line lines)
  /\ trim (clean_lines s) = clean_lines s
  /\ ~ occurs [NL; NL] (clean_lines s).
Proof.
  unfold clean_lines.
  pose proof (clean_lines_are_clean s) as Hlines.
  remember (filter (fun line => (0 <? length line)%nat)
              (map trim (split NL s))) as lines eqn:Heq.
  clear Heq.
  split; [now exists lines|]. split; [|now apply join_no_blank_line].
  destruct lines as [|l ls]; [reflexivity|].
  apply trim_fixed.
  - inversion Hlines as [|? ? Hl _]; subst.
    destruct (clean_line_ends _ Hl) as [(c & t & -> & Hc) _].
    destruct (join_head [NL] c t ls) as [t' ->].
    cbn [trimStart]. now rewrite Hc.
  - destruct (join_last [NL] (l :: ls)) as [m Hm]; [discriminate|].
    rewrite Hm. clear Hm.
    assert (Hlast : clean_line (last (l :: ls) [])).
    { rewrite Forall_forall in Hlines. apply Hlines.
      destruct (@exists_last _ (l :: ls)) as (ls' & l' & E); [discriminate|].
      rewrite E, last_last. apply in_or_app. right. now left. }
    destruct (clean_line_ends _ Hlast) as [_ (m' & d & E & Hd)].
    unfold jsstring in *.
    rewrite E, app_assoc, rev_app_distr. cbn [rev app trimStart].
    now rewrite Hd.
Qed.

(** X12.  Whatever the input, the normalized text is a sequence of lines,
    separated by single newlines, each of them not empty, free of newlines
    and without white space at either end.  So the text as a whole neither
    starts nor ends with white space and has no blank line. *)
Theorem cleanWithRegex_shape (x : jsstring) :
  (exists lines,
      cleanWithRegex x = join [NL] lines /\ Forall clean_line lines)
  /\ trim (cleanWithRegex x) = cleanWithRegex x
  /\ ~ occurs [NL; NL] (cleanWithRegex x).
Proof. exact (clean_lines_shape (strip_markup x)). Qed.

(* ================================================================= *)
(** ** What a replacement can leave behind *)

Lemma exec_suffix (re : regex) (s r : jsstring) :
  exec re s = Some r -> exists u, s = u ++ r.
Proof.
  intros H. rewrite <- (app_nil_r re) in H.
  apply exec_app_inv in H as (u & mid & -> & H). injection H as ->.
  now exists u.
Qed.

(** The two ways a replacement goes on at a unit, for an expression that
    consumes at least one unit at each match. *)
Lemma replace_cases (p : char -> bool) (re : regex) (rep : jsstring)
    (x : char) (s : jsstring) :
  (exec (One p :: re) (x :: s) = None
   /\ replace (One p :: re) rep (x :: s) = x :: replace (One p :: re) rep s)
  \/ (exists u rest,
        x :: s = u ++ rest /\ length rest < length (x :: s)
        /\ exec (One p :: re) (x :: s) = Some rest
        /\ replace (One p :: re) rep (x :: s)
           = rep ++ replace (One p :: re) rep rest).
Proof.
  destruct (exec (One p :: re) (x :: s)) as [rest|] eqn:E.
  - right. destruct (exec_suffix _ _ _ E) as [u Hu].
    pose proof (exec_consumes _ _ _ _ E) as Hlen.
    exists u, rest. repeat split; try assumption.
    rewrite Hu in E |- *. apply replace_hit; [|exact E].
    intros ->. rewrite Hu in Hlen. simpl in Hlen. lia.
  - left. split; [reflexivity|]. now apply replace_miss.
Qed.

(** A prefix of the result that does not hold the replacement unit is a
    prefix of the input. *)
Lemma replace_prefix (re : regex) (c : char) (s pre : jsstring) :
  has_prefix pre (replace re [c] s) -> ~ In c pre -> has_prefix pre s.
Proof.
  revert pre; induction s as [|x s IH]; intros pre [t Ht] Hc.
  - destruct pre; [now exists [] | discriminate Ht].
  - destruct pre as [|y pre]; [now exists (x :: s)|].
    unfold replace in Ht. cbn [replace_from] in Ht.
    destruct (exec re (x :: s)) as [rest|].
    + injection Ht as <- _. exfalso. apply Hc. now left.
    + injection Ht as <- Ht. destruct (IH pre) as [t' ->].
      * now exists t.
      * intros H. apply Hc. now right.
      * now exists t'.
Qed.

Lemma occurs_cons (pat : jsstring) (x : char) (s : jsstring) :
  occurs pat (x :: s) -> has_prefix pat (x :: s) \/ occurs pat s.
Proof.
  intros ([|y a] & b & E).
  - left. now exists b.
  - right. injection E as _ ->. now exists a, b.
Qed.

Lemma occurs_app_r (pat u s : jsstring) : occurs pat s -> occurs pat (u ++ s).
Proof.
  intros (a & b & ->). exists (u ++ a), b. now rewrite <- app_assoc.
Qed.

(** An occurrence of [pat] in the result of a replacement by a unit that is
    not in [pat] was in the input. *)
Lemma replace_occurs (p : char -> bool) (re : regex) (c : char)
    (pat : jsstring) :
  pat <> [] -> ~ In c pat ->
  forall s, occurs pat (replace (One p :: re) [c] s) -> occurs pat s.
Proof.
  intros Hne Hc s.
  induction s as [s IH] using (induction_ltof1 _ (@length char)).
  unfold ltof in IH. destruct s as [|x s].
  - intros (a & b & E). destruct a, pat; try discriminate E. congruence.
  - destruct (replace_cases p re [c] x s)
      as [[Hex ->]|(u & rest & Hs & Hlen & Hex & ->)]; intros Hocc.
    + apply occurs_cons in Hocc as [Hpre|Hocc].
      * rewrite <- (replace_miss _ _ _ _ Hex) in Hpre.
        apply replace_prefix in Hpre as [t ->]; [|exact Hc].
        now exists [], t.
      * apply (occurs_app_r pat [x]). apply IH; [simpl; lia | exact Hocc].
    + cbn [app] in Hocc. apply occurs_cons in Hocc as [[t Ht]|Hocc].
      * destruct pat as [|y pat]; [congruence|]. injection Ht as <- _.
        exfalso. apply Hc. now left.
      * rewrite Hs. apply occurs_app_r. apply IH; [exact Hlen | exact Hocc].
Qed.

(** After the replacement of a literal by a unit that is not in it, the
    literal is gone. *)
Lemma replace_literal_gone (y : char) (pat : jsstring) (c : char) :
  ~ In c (y :: pat) ->
  forall s,
    ~ occurs (y :: pat)
        (replace (map (fun x => One (eq_char x)) (y :: pat)) [c] s).
Proof.
  intros Hc s. cbn [map].
  induction s as [s IH] using (induction_ltof1 _ (@length char)).
  unfold ltof in IH. destruct s as [|x s].
  - intros (a & b & E). destruct a; discriminate E.
  - destruct (replace_cases (eq_char y)
                (map (fun x => One (eq_char x)) pat) [c] x s)
      as [[Hex ->]|(u & rest & Hs & Hlen & Hex & ->)]; intros Hocc.
    + apply occurs_cons in Hocc as [Hpre|Hocc].
      * rewrite <- (replace_miss _ _ _ _ Hex) in Hpre.
        apply replace_prefix in Hpre as [t Ht]; [|exact Hc].
        change (One (eq_char y) :: map (fun x => One (eq_char x)) pat)
          with (map (fun x => One (eq_char x)) (y :: pat)) in Hex.
        rewrite <- (app_nil_r (map _ (y :: pat))), exec_lit, Ht in Hex.
        rewrite startsWith_app in Hex. discriminate Hex.
      * apply (IH s); [simpl; lia | exact Hocc].
    + cbn [app] in Hocc. apply occurs_cons in Hocc as [[t Ht]|Hocc].
      * injection Ht as <- _. apply Hc. now left.
      * apply (IH rest); [exact Hlen | exact Hocc].
Qed.

(** Occurrences in the lines that are kept. *)
Lemma occurs_join (pat : jsstring) (sep : char) (ls : list jsstring) :
  pat <> [] -> ~ In sep pat ->
  occurs pat (join [sep] ls) -> exists l, In l ls /\ occurs pat l.
Proof.
  intros Hne Hsep. induction ls as [|l ls IH]; intros (a & b & E).
  - destruct a, pat; try discriminate E. congruence.
  - destruct ls as [|l' ls].
    + exists l. split; [now left | now exists a, b].
    + change (l ++ sep :: join [sep] (l' :: ls) = a ++ pat ++ b) in E.
      apply app_eq_app in E as [m [[E1 E2] | [E1 E2]]].
      * apply app_eq_app in E2 as [n [[E3 E4] | [E3 E4]]].
        -- exists l. split; [now left|]. destruct n as [|z n].
           ++ rewrite app_nil_r in E3. subst m. exists a, [].
              now rewrite app_nil_r.
           ++ injection E4 as <- _. exfalso. apply Hsep. rewrite E3.
              apply in_elt.
        -- exists l. split; [now left|]. exists a, n. now rewrite E1, E3.
      * destruct m as [|z m].
        -- destruct pat as [|y pat]; [congruence|].
           injection E2 as <- _. exfalso. apply Hsep. now left.
        -- injection E2 as _ E2.
           destruct IH as (l0 & Hl0 & Hocc); [now exists m, b|].
           exists l0. split; [now right | exact Hocc].
Qed.

Lemma trimStart_suffix (s : jsstring) : exists w, s = w ++ trimStart s.
Proof.
  induction s as [|c s [w IH]]; [now exists []|]. cbn [trimStart].
  destruct (is_white_space c); [|now exists []].
  exists (c :: w). cbn [app]. now rewrite <- IH.
Qed.

Lemma trim_substring (s : jsstring) : exists w1 w2, s = w1 ++ trim s ++ w2.
Proof.
  destruct (trimStart_suffix s) as [w1 H1].
  destruct (trimStart_suffix (rev (trimStart s))) as [w2 H2].
  exists w1, (rev w2). unfold trim, trimEnd.
  rewrite <- rev_app_distr, <- H2, rev_involutive. exact H1.
Qed.

Lemma split_first_prefix (sep : char) (s l0 : jsstring)
    (ls : list jsstring) :
  split sep s = l0 :: ls -> exists b, s = l0 ++ b.
Proof.
  revert l0 ls; induction s as [|c s IH]; intros l0 ls; cbn [split].
  - intros H; injection H as <- _. now exists [].
  - destruct (c =? sep)%N.
    + intros H; injection H as <- _. now exists (c :: s).
    + destruct (split sep s) as [|l1 ls1] eqn:E.
      * intros H; injection H as <- _. now apply split_nonempty in E.
      * intros H; injection H as <- _.
        destruct (IH l1 ls1 eq_refl) as [b ->]. now exists b.
Qed.

Lemma split_substring (sep : char) (s l : jsstring) :
  In l (split sep s) -> exists a b, s = a ++ l ++ b.
Proof.
  revert l; induction s as [|c s IH]; intros l; cbn [split].
  - intros [<-|[]]. now exists [], [].
  - destruct (c =? sep)%N.
    + intros [<-|Hl]; [now exists [], (c :: s)|].
      destruct (IH l Hl) as (a & b & ->). now exists (c :: a), b.
    + destruct (split sep s) as [|l0 ls] eqn:E.
      * intros [<-|[]]. now apply split_nonempty in E.
      * intros [<-|Hl].
        -- destruct (split_first_prefix sep s l0 ls E) as [b ->].
           now exists [], b.
        -- destruct (IH l) as (a & b & ->); [now right|].
           now exists (c :: a), b.
Qed.

Lemma occurs_substring (pat l s a b : jsstring) :
  s = a ++ l ++ b -> occurs pat l -> occurs pat s.
Proof.
  intros -> (a' & b' & ->). exists (a ++ a'), (b' ++ b).
  now rewrite <- !app_assoc.
Qed.

Lemma clean_lines_occurs (pat s : jsstring) :
  pat <> [] -> ~ In NL pat -> occurs pat (clean_lines s) -> occurs pat s.
Proof.
  intros Hne Hnl Hocc. unfold clean_lines in Hocc.
  apply occurs_join in Hocc as (l & Hl & Hocc); [|exact Hne|exact Hnl].
  apply filter_In in Hl as [Hl _].
  apply in_map_iff in Hl as (l0 & <- & Hl0).
  destruct (trim_substring l0) as (w1 & w2 & Hw).
  destruct (split_substring NL s l0 Hl0) as (a & b & Hs).
  eapply occurs_substring; [exact Hs|].
  eapply occurs_substring; [exact Hw | exact Hocc].
Qed.

(** The last three replacements leave none of their entities. *)
Lemma no_entity_left (x : jsstring) (e : entity) :
  In e [Lt; Gt; Quot] ->
  ~ occurs (entity_text e) (clean_lines (strip_markup x)).
Proof.
  intros He Hocc.
  apply clean_lines_occurs in Hocc;
    [|destruct e; discriminate | destruct e; simpl; intuition discriminate].
  unfold strip_markup in Hocc.
  set (s0 := replace (re_lit "&amp;") [AMP] _) in Hocc.
  each_member He.
  - apply (replace_occurs _ _ QUOT) in Hocc;
      [|discriminate | simpl; intuition discriminate].
    apply (replace_occurs _ _ GT) in Hocc;
      [|discriminate | simpl; intuition discriminate].
    revert Hocc. apply (replace_literal_gone AMP (lit "lt;") LT).
    simpl; intuition discriminate.
  - apply (replace_occurs _ _ QUOT) in Hocc;
      [|discriminate | simpl; intuition discriminate].
    revert Hocc. apply (replace_literal_gone AMP (lit "gt;") GT).
    simpl; intuition discriminate.
  - revert Hocc. apply (replace_literal_gone AMP (lit "quot;") QUOT).
    simpl; intuition discriminate.
Qed.

(** X13.  Whatever the input, the normalized text holds none of the entities
    [&lt;], [&gt;] and [&quot;]: what an earlier replacement produces, such
    as the ampersand of a decoded [&amp;], is decoded by the later ones. *)
Theorem cleanWithRegex_decoded (x : jsstring) (e : entity) :
  In e [Lt; Gt; Quot] -> ~ occurs (entity_text e) (cleanWithRegex x).
Proof. exact (no_entity_left x e). Qed.

Lemma cleanWithRegex_decoded_witness :
  ~ occurs (lit "&lt;") (cleanWithRegex (lit "a &amp;lt; b")).
Proof.
  apply (cleanWithRegex_decoded (lit "a &amp;lt; b") Lt).
  simpl. auto.
Defined.

(** The entities [&amp;] and [&nbsp;] can be left: the ampersand a decoded
    [&amp;] stands for is not looked at again by the replacement of
    [&nbsp;], which comes before. *)
Remark cleanWithRegex_leaves_nbsp :
  cleanWithRegex (lit "&amp;nbsp;") = lit "&nbsp;"
  /\ cleanWithRegex (lit "&amp;amp;") = lit "&amp;".
Proof. split; reflexivity. Qed.

(** X14.  Every card the retriever returns comes from a record of the store,
    with the identifier and the due key of that record, and its question
    and its answer are normalized text: no white space at either end, no
    blank line, none of the entities [&lt;], [&gt;] and [&quot;]. *)
Theorem findCardsAndOrder_cards (S : Type) (h : store S) (st st1 st2 : S)
    (keyword : jsstring) (ids : list Z) (infos : list CardInfo) :
  h (findCards (formatQuery keyword)) st = (Ok ids, st1) ->
  h (cardsInfo ids) st1 = (Ok infos, st2) ->
  exists cards,
    fst (fst (run h (findCardsAndOrder keyword) st)) = Returned cards
    /\ length cards = length infos
    /\ Forall (fun card =>
                 (exists info,
                     In info infos
                     /\ cardId card = info_cardId info
                     /\ due card = info_due info)
                 /\ normalized (question card)
                 /\ normalized (answer card)) cards.
Proof.
  intros Hfind Hinfo. exists (sort by_due (map project infos)).
  split; [|split].
  - unfold findCardsAndOrder. cbn [run]. rewrite Hfind. cbn [run].
    now rewrite Hinfo.
  - rewrite (Permutation_length (sort_perm _)). apply length_map.
  - eapply Permutation_Forall; [symmetry; apply sort_perm|].
    apply Forall_forall. intros card Hcard.
    apply in_map_iff in Hcard as (info & <- & Hin).
    assert (Hn : forall x, normalized (cleanWithRegex x)).
    { intros x. destruct (clean_lines_shape (strip_markup x)) as (_ & H1 & H2).
      repeat split; try assumption.
      intros e He. now apply no_entity_left. }
    split; [now exists info|]. split; apply Hn.
Qed.

Lemma findCardsAndOrder_cards_witness :
  exists cards,
    fst (fst (run sample_store (findCardsAndOrder (lit "isdue")) 0%Z))
    = Returned cards
    /\ length cards = 3.
Proof.
  destruct (findCardsAndOrder_cards Z sample_store 0%Z 0%Z 0%Z (lit "isdue")
              [1; 2; 3]%Z (map sample_info [1; 2; 3]%Z) eq_refl eq_refl)
    as (cards & Hrun & Hlen & _).
  exists cards. split; [exact Hrun | exact Hlen].
Defined.

(* ================================================================= *)
(** ** The normalizer on text around markup *)

Lemma replace_all_untriggered (re : regex) (rep s : jsstring) :
  Forall (fun c => trigger re c = false) s -> replace re rep s = s.
Proof.
  intros H. rewrite <- (app_nil_r s) at 1.
  rewrite (replace_untriggered _ _ _ [] H). apply app_nil_r.
Qed.

Lemma not_in_forall (z : char) (s : jsstring) :
  ~ In z s -> Forall (fun c => (c =? z)%N = false) s.
Proof.
  intros H. apply Forall_forall. intros c Hc. apply N.eqb_neq.
  intros ->. contradiction.
Qed.

Lemma trimStart_white (s : jsstring) :
  Forall (fun c => is_white_space c = true) s -> trimStart s = [].
Proof.
  induction 1 as [|c s Hc _ IH]; [reflexivity|].
  cbn [trimStart]. now rewrite Hc.
Qed.

(** X15.  Text made of white space only, the empty text included, is
    normalized to the empty text. *)
Theorem cleanWithRegex_blank (s : jsstring) :
  Forall (fun c => is_white_space c = true) s -> cleanWithRegex s = [].
Proof.
  intros Hs. rewrite Forall_forall in Hs.
  unfold cleanWithRegex. rewrite strip_markup_clean.
  2:{ apply plain_is_clean; intros Hin; apply Hs in Hin; discriminate Hin. }
  unfold clean_lines.
  assert (Hall : Forall (fun l => trim l = []) (split NL s)).
  { apply Forall_forall. intros l Hl. unfold trim.
    rewrite trimStart_white; [reflexivity|].
    apply Forall_forall. intros c Hc. apply Hs.
    now apply (split_In NL c s l). }
  induction Hall as [|l ls Hl _ IH]; [reflexivity|].
  cbn [map filter]. rewrite Hl. exact IH.
Qed.

Lemma cleanWithRegex_blank_witness :
  cleanWithRegex [SPACE; NL; 9%N; 160%N; NL] = [].
Proof.
  apply cleanWithRegex_blank. repeat constructor.
Defined.

(** The closing keyword of a style block is the first one after its
    opening tag. *)
Lemma star_lazy_first (p : char -> bool) (k : jsstring -> option jsstring)
    (body s r : jsstring) :
  (forall b1 x b2, body = b1 ++ x :: b2 -> k (x :: b2 ++ s) = None) ->
  forallb p body = true -> k s = Some r ->
  star_lazy p k (body ++ s) = Some r.
Proof.
  intros Hnone Hp Hk. induction body as [|x body IH].
  - cbn [app]. destruct s; cbn [star_lazy]; now rewrite Hk.
  - cbn [app star_lazy]. rewrite (Hnone [] x body eq_refl).
    cbn [forallb] in Hp. apply andb_true_iff in Hp as [Hx Hp]. rewrite Hx.
    apply IH; [|exact Hp].
    intros b1 y b2 ->. apply (Hnone (x :: b1) y b2). reflexivity.
Qed.

Lemma no_early_closing (body cl b b1 b2 : jsstring) (x : char) :
  occurs_ci (lit "</style>") body = false ->
  same_ci cl (lit "</style>") = true ->
  body = b1 ++ x :: b2 ->
  exec (map (fun c => One (eq_char_ci c)) (lit "</style>"))
    (x :: b2 ++ cl ++ b) = None.
Proof.
  intros Hbody Hcl ->.
  destruct (exec _ _) as [r|] eqn:E; [|reflexivity]. exfalso.
  apply exec_lit_ci_inv in E as (c' & E & Hc').
  change (x :: b2 ++ cl ++ b) with ((x :: b2) ++ cl ++ b) in E.
  apply app_eq_app in E as [m [[E1 E2] | [E1 E2]]].
  - apply (occurs_ci_false _ _ b1 c' m Hbody); [|exact Hc'].
    now rewrite E1.
  - destruct m as [|z m].
    + rewrite app_nil_r in E1.
      apply (occurs_ci_false _ _ b1 c' [] Hbody); [|exact Hc'].
      now rewrite app_nil_r, E1.
    + destruct (closing_shape _ Hcl) as (mc & Ecl & _).
      destruct (closing_shape _ Hc') as (mc' & Ec' & HnoLT & _).
      rewrite Ecl in E2. injection E2 as <- _.
      rewrite E1 in Ec'. injection Ec' as _ Ec'.
      apply HnoLT. rewrite <- Ec'. apply in_elt.
Qed.

Lemma exec_style_exact (o a body c rest : jsstring) :
  well_formed (StyleBlock o a body c) = true ->
  exec re_style (piece_text (StyleBlock o a body c) ++ rest) = Some rest.
Proof.
  cbn [well_formed piece_text]. intros Hp.
  apply andb_true_iff in Hp as [Hp Hc].
  apply andb_true_iff in Hp as [Hp Hbody].
  apply andb_true_iff in Hp as [Ho Ha].
  apply negb_true_iff in Hbody.
  rewrite <- !app_assoc. unfold re_style, re_lit_ci.
  rewrite (exec_lit_ci _ _ _ _ Ho). cbn [app exec].
  rewrite <- (app_assoc body c rest).
  rewrite star_greedy_stop.
  - rewrite eq_char_ci_caseless by (left; reflexivity).
    rewrite N.eqb_refl.
    apply star_lazy_first.
    + intros b1 x b2 Hb. now apply (no_early_closing body c rest b1 b2 x).
    + now apply forallb_forall.
    + rewrite <- (app_nil_r (map _ _)).
      now rewrite (exec_lit_ci _ _ _ _ Hc).
  - intros x s' Hx. rewrite eq_char_ci_caseless by (left; reflexivity).
    unfold neq_char in Hx. apply negb_true_iff in Hx. now rewrite Hx.
  - now apply no_angle_forall.
  - unfold neq_char. now rewrite N.eqb_refl.
Qed.

(** X16.  A style block vanishes with all of its content: whatever its body
    holds (tags, entities, text), the text before the block, when it holds
    no [<], and the text after it are normalized as if the block were not
    there. *)
Theorem cleanWithRegex_style_block (before o a body c rest : jsstring) :
  ~ In LT before ->
  well_formed (StyleBlock o a body c) = true ->
  cleanWithRegex (before ++ piece_text (StyleBlock o a body c) ++ rest)
  = cleanWithRegex (before ++ rest).
Proof.
  intros Hb Hwf.
  assert (E : replace re_style []
                (before ++ piece_text (StyleBlock o a body c) ++ rest)
              = replace re_style [] (before ++ rest)).
  2:{ unfold cleanWithRegex, strip_markup. now rewrite E. }
  pose proof (style_untriggered _ (not_in_forall LT before Hb)) as Hu.
  rewrite !(replace_untriggered re_style [] before _ Hu). f_equal.
  rewrite replace_hit; [reflexivity| |now apply exec_style_exact].
  destruct (opening_shape o) as (x & m & -> & _); [|discriminate].
  cbn [well_formed] in Hwf.
  apply andb_true_iff in Hwf as [Hwf _].
  apply andb_true_iff in Hwf as [Hwf _].
  now apply andb_true_iff in Hwf as [Hwf _].
Qed.

Lemma cleanWithRegex_style_block_witness :
  cleanWithRegex
    (lit "What is 2+2?"
     ++ piece_text (StyleBlock (lit "<STYLE") (lit " media=all")
                      (lit ".card { color: red } <b>&amp;</b>")
                      (lit "</Style>"))
     ++ lit " Four")
  = cleanWithRegex (lit "What is 2+2?" ++ lit " Four").
Proof.
  apply cleanWithRegex_style_block; [|reflexivity].
  intros H. vm_compute in H. intuition discriminate.
Defined.

(** A match of the style expression needs a closing keyword further on. *)
Lemma exec_style_needs_closing (x : char) (t r : jsstring) :
  exec re_style (x :: t) = Some r -> In LT t.
Proof.
  unfold re_style.
  change (re_lit_ci "<style") with (One (eq_char_ci LT) :: re_lit_ci "style").
  cbn [app exec]. destruct (eq_char_ci LT x); [|discriminate].
  change (Star (neq_char GT) :: One (eq_char_ci GT) :: StarLazy any_char
          :: re_lit_ci "</style>")
    with ([Star (neq_char GT); One (eq_char_ci GT); StarLazy any_char]
          ++ re_lit_ci "</style>").
  rewrite app_assoc. intros H.
  apply exec_app_inv in H as (u & mid & -> & H).
  apply exec_lit_ci_inv in H as (cl & -> & Hcl).
  destruct (closing_shape _ Hcl) as (m & -> & _).
  apply in_or_app. right. now left.
Qed.

Lemma strip_markup_tag (a body b : jsstring) :
  plain a -> plain b -> (0 <? length body)%nat && no_angle body = true ->
  strip_markup (a ++ LT :: body ++ GT :: b)
  = a ++ (if startsWith (lit "div") body then NL else SPACE) :: b.
Proof.
  intros (Ha1 & Ha2 & Ha3) (Hb1 & Hb2 & Hb3) Hbody.
  pose proof Hbody as Hbody'. apply andb_true_iff in Hbody' as [_ Hna].
  pose proof (not_in_forall LT a Ha1) as HaLT.
  pose proof (not_in_forall LT b Hb1) as HbLT.
  assert (Htail : Forall (fun c => (c =? LT)%N = false) (body ++ GT :: b)).
  { apply Forall_app. split; [now apply no_angle_forall|].
    constructor; [reflexivity | exact HbLT]. }
  assert (E1 : replace re_style [] (a ++ LT :: body ++ GT :: b)
               = a ++ LT :: body ++ GT :: b).
  { rewrite replace_untriggered by now apply style_untriggered.
    f_equal. rewrite replace_miss.
    - f_equal. apply replace_all_untriggered. now apply style_untriggered.
    - destruct (exec re_style _) as [r|] eqn:E; [|reflexivity]. exfalso.
      apply exec_style_needs_closing in E.
      rewrite Forall_forall in Htail. now apply Htail in E. }
  set (x := if startsWith (lit "div") body then NL else SPACE).
  assert (E3 : replace re_tag [SPACE] (replace re_div [NL]
                 (a ++ LT :: body ++ GT :: b)) = a ++ x :: b).
  { rewrite (replace_untriggered re_div [NL] a _ HaLT).
    change (LT :: body ++ GT :: b) with (LT :: body ++ [GT] ++ b).
    pose proof (exec_div_tag body b Hna) as Hdiv.
    pose proof (exec_tag_tag body b Hbody) as Htag.
    assert (Ea : LT :: body ++ [GT] ++ b = (LT :: body ++ [GT]) ++ b)
      by (cbn [app]; now rewrite <- app_assoc).
    subst x. destruct (startsWith (lit "div") body).
    - rewrite Ea in Hdiv |- *.
      rewrite (replace_hit re_div [NL] _ b) by (discriminate || exact Hdiv).
      rewrite (replace_all_untriggered re_div [NL] b HbLT).
      apply replace_all_untriggered. apply Forall_app. split; [exact HaLT|].
      constructor; [reflexivity | exact HbLT].
    - rewrite replace_miss by exact Hdiv.
      change ([GT] ++ b) with (GT :: b).
      rewrite (replace_all_untriggered re_div [NL] _ Htail).
      change (GT :: b) with ([GT] ++ b).
      rewrite (replace_untriggered re_tag [SPACE] a _ HaLT). f_equal.
      rewrite Ea in Htag |- *.
      rewrite (replace_hit re_tag [SPACE] _ b) by (discriminate || exact Htag).
      now rewrite (replace_all_untriggered re_tag [SPACE] b HbLT). }
  assert (Hx : x = NL \/ x = SPACE)
    by (subst x; destruct (startsWith _ _); auto).
  assert (Hclean : clean (a ++ x :: b)).
  { apply plain_is_clean; intros Hin; apply in_app_or in Hin as [Hin|[Hin|Hin]];
      try contradiction; destruct Hx as [Hx|Hx]; rewrite Hx in Hin;
      discriminate Hin. }
  unfold strip_markup. rewrite E1, E3.
  rewrite (replace_no_match re_play) by (apply Hclean; simpl; auto 10).
  rewrite (replace_no_match (re_lit "&nbsp;")) by (apply Hclean; simpl; auto 10).
  rewrite (replace_no_match (re_lit "&amp;")) by (apply Hclean; simpl; auto 10).
  rewrite (replace_no_match (re_lit "&lt;")) by (apply Hclean; simpl; auto 10).
  rewrite (replace_no_match (re_lit "&gt;")) by (apply Hclean; simpl; auto 10).
  rewrite (replace_no_match (re_lit "&quot;")) by (apply Hclean; simpl; auto 10).
  reflexivity.
Qed.

(** X17.  A tag between plain texts (texts without [<], [&] and [[]) is
    normalized to a line break when its body starts with [div], and to a
    space otherwise: so [<br>], [<p>] and the closing [</div>] do not break
    the line, and only an opening [<div ...>] does. *)
Theorem cleanWithRegex_tag (a body b : jsstring) :
  plain a -> plain b -> (0 <? length body)%nat && no_angle body = true ->
  cleanWithRegex (a ++ LT :: body ++ GT :: b)
  = clean_lines
      (a ++ (if startsWith (lit "div") body then NL else SPACE) :: b).
Proof.
  intros Ha Hb Hbody. unfold cleanWithRegex.
  now rewrite strip_markup_tag.
Qed.

Lemma cleanWithRegex_tag_witness :
  cleanWithRegex (lit "one" ++ LT :: lit "br" ++ GT :: lit "two")
  = lit "one two"
  /\ cleanWithRegex (lit "one" ++ LT :: lit "div class=x" ++ GT :: lit "two")
     = lit "one" ++ NL :: lit "two"
  /\ cleanWithRegex (lit "one" ++ LT :: lit "/div" ++ GT :: lit "two")
     = lit "one two".
Proof.
  assert (P : forall s, s = lit "one" \/ s = lit "two" -> plain s).
  { intros s [-> | ->]; repeat split; intros H; vm_compute in H;
      intuition discriminate. }
  split; [|split].
  - rewrite (cleanWithRegex_tag (lit "one") (lit "br") (lit "two"));
      [reflexivity | apply P; auto | apply P; auto | reflexivity].
  - rewrite (cleanWithRegex_tag (lit "one") (lit "div class=x") (lit "two"));
      [reflexivity | apply P; auto | apply P; auto | reflexivity].
  - rewrite (cleanWithRegex_tag (lit "one") (lit "/div") (lit "two"));
      [reflexivity | apply P; auto | apply P; auto | reflexivity].
Defined.

(* ================================================================= *)
(** ** The length of normalized text *)

Lemma replace_length (p : char -> bool) (re : regex) (rep s : jsstring) :
  length rep <= 1 -> length (replace (One p :: re) rep s) <= length s.
Proof.
  intros Hrep. remember (length s) as n eqn:Hn.
  revert s Hn. induction n as [n IH] using lt_wf_ind. intros s ->.
  destruct s as [|x s]; [cbn; lia|].
  destruct (replace_cases p re rep x s)
    as [[_ ->] | (u & rest & _ & Hlt & _ & ->)].
  - cbn [length]. specialize (IH (length s) ltac:(cbn; lia) s eq_refl). lia.
  - rewrite length_app.
    specialize (IH (length rest) Hlt rest eq_refl). lia.
Qed.

Lemma strip_markup_length (s : jsstring) :
  length (strip_markup s) <= length s.
Proof.
  unfold strip_markup.
  repeat (etransitivity; [apply replace_length; cbn; lia|]).
  reflexivity.
Qed.

Lemma join_length (ls : list jsstring) :
  length (join [NL] ls) = weight ls - 1.
Proof.
  induction ls as [|l ls IH]; [reflexivity|].
  destruct ls as [|l' ls].
  - unfold weight, list_sum. cbn [map fold_right join]. lia.
  - change (join [NL] (l :: l' :: ls)) with (l ++ [NL] ++ join [NL] (l' :: ls)).
    rewrite !length_app, IH. unfold weight, list_sum.
    cbn [map fold_right length]. lia.
Qed.

Lemma split_weight (s : jsstring) : weight (split NL s) = S (length s).
Proof.
  induction s as [|c s IH]; [reflexivity|].
  cbn [split]. destruct (c =? NL)%N.
  - unfold weight, list_sum in *. cbn [map fold_right length] in *. lia.
  - destruct (split NL s) as [|l ls]; unfold weight, list_sum in *;
      cbn [map fold_right length] in *; lia.
Qed.

Lemma trim_length (s : jsstring) : length (trim s) <= length s.
Proof.
  unfold trim, trimEnd. rewrite length_rev.
  etransitivity; [apply trimStart_length|]. rewrite length_rev.
  apply trimStart_length.
Qed.

Lemma clean_lines_length (s : jsstring) :
  length (clean_lines s) <= length s.
Proof.
  unfold clean_lines. rewrite join_length.
  pose proof (split_weight s) as Hw.
  assert (weight (filter (fun line => (0 <? length line)%nat)
                    (map trim (split NL s))) <= weight (split NL s)); [|lia].
  clear Hw. induction (split NL s) as [|l ls IH]; [reflexivity|].
  cbn [map filter]. pose proof (trim_length l) as Hl.
  destruct (0 <? length (trim l))%nat; unfold weight, list_sum in *;
    cbn [map fold_right] in *; lia.
Qed.

(** X18.  The normalized text is never longer than the text it is made
    from. *)
Theorem cleanWithRegex_length (htmlString : jsstring) :
  length (cleanWithRegex htmlString) <= length htmlString.
Proof.
  unfold cleanWithRegex.
  etransitivity; [apply clean_lines_length | apply strip_markup_length].
Qed.
